(** * Epensetracking: balance aggregation and debt settlement

    A shallow embedding of the balance engine of the expense tracker:

    - [getGroupBalances]    (Firebase service, pair map with reverse-key netting),
    - [simplifyBalances]    (utils, per-member signed accumulation),
    - [calculateMinCashFlow], [validateCashFlow] (utils, greedy settlement),
    - [calculateSimplifiedBalances] (GroupDetail page).

    JavaScript numbers are modelled as exact rationals [Q]: [Math.round],
    [Math.abs] and [Math.min] become [Qfloor (x + 1/2)], [Qabs] and [Qmin];
    binary floating-point drift is outside the model.  A JavaScript [Map] is
    an association list in insertion order, which is the order [forEach] and
    [entries] visit it in. *)

From Stdlib Require Import List Permutation String Ascii Bool Arith ZArith QArith Qabs Qround Qminmax Lqa Lia.
Import ListNotations.

Open Scope string_scope.
Open Scope list_scope.
Open Scope Q_scope.

(** ** Numbers *)

(** The literal [0.01] that the source repeats in every comparison. *)
Definition tolerance : Q := 1 # 100.

(** [x < y] and [x > y] on numbers, as booleans. *)
Definition Qltb (x y : Q) : bool := negb (Qle_bool y x).
Definition Qgtb (x y : Q) : bool := Qltb y x.

(** [Math.round(x)]: nearest integer, halves towards plus infinity. *)
Definition Math_round (x : Q) : Z := Qfloor (x + (1 # 2)).

(** [Math.round(x * 100) / 100]. *)
Definition round2 (x : Q) : Q := inject_Z (Math_round (x * 100)) / 100.

(** A number with at most two decimals: a whole number of paise. *)
Definition is2dp (x : Q) : Prop := exists k : Z, x == inject_Z k / 100.

Fixpoint sumQ (l : list Q) : Q :=
  match l with
  | [] => 0
  | x :: r => x + sumQ r
  end.

(** ** Strings and pair keys *)

Definition colon : ascii := ":"%char.

(** The template literal [`${a}:${b}`]. *)
Definition pairKey (a b : string) : string := (a ++ String colon b)%string.

(** [s.split(':')]: a first part and the list of the following ones. *)
Fixpoint splitColon (s : string) : string * list string :=
  match s with
  | EmptyString => (EmptyString, [])
  | String c r =>
      let '(h, t) := splitColon r in
      if Ascii.eqb c colon then (EmptyString, h :: t) else (String c h, t)
  end.

(** [const [fromUser, toUser] = key.split(':')].  A key without a colon would
    leave [toUser] undefined; the keys of the pair map always have one. *)
Definition keyUsers (key : string) : string * string :=
  match splitColon key with
  | (a, b :: _) => (a, b)
  | (a, []) => (a, "undefined")
  end.

Fixpoint noColon (s : string) : bool :=
  match s with
  | EmptyString => true
  | String c r => negb (Ascii.eqb c colon) && noColon r
  end.

(** ** JavaScript [Map] with string keys, in insertion order *)

Section JsMap.
Context {V : Type}.

Definition JsMap := list (string * V).

Fixpoint map_get (m : JsMap) (k : string) : option V :=
  match m with
  | [] => None
  | (k', v) :: r => if String.eqb k' k then Some v else map_get r k
  end.

Definition map_has (m : JsMap) (k : string) : bool :=
  match map_get m k with Some _ => true | None => false end.

(** [set] overwrites in place, or appends a new key. *)
Fixpoint map_set (m : JsMap) (k : string) (v : V) : JsMap :=
  match m with
  | [] => [(k, v)]
  | (k', v') :: r =>
      if String.eqb k' k then (k', v) :: r else (k', v') :: map_set r k v
  end.
End JsMap.

Arguments JsMap V : clear implicits.

(** ** Records of [types.ts] (the fields the engine reads) *)

Record ExpenseSplit := mkSplit {
  split_user_id : string;
  share_amount : Q
}.

Record Expense := mkExpense {
  expense_id : string;
  amount : Q;
  paid_by : string;
  splits : option (list ExpenseSplit)
}.

Record GroupMember := mkMember {
  member_user_id : string;
  member_name : option string          (* [m.user?.name] *)
}.

Record UserBalance := mkUserBalance {
  group_id : string;
  from_user : string;
  to_user : string;
  owes : Q;
  from_user_name : option string;
  to_user_name : option string
}.

Record SimplifiedBalance := mkBalance {
  user_id : string;
  user_name : string;
  net_amount : Q
}.

Record DebtFlow := mkFlow {
  from : string;
  to : string;
  flow_amount : Q;
  fromName : string;
  toName : string
}.

(** [x || fallback] on an optional string: undefined and the empty string
    are both falsy. *)
Definition orElse (x : option string) (fallback : string) : string :=
  match x with
  | Some EmptyString => fallback
  | Some s => s
  | None => fallback
  end.

(** ** getGroupBalances (Firebase service) *)

(** [balanceMap.get(key) || 0]. *)
Definition getOrZero (m : JsMap Q) (k : string) : Q :=
  match map_get m k with
  | Some v => v
  | None => 0
  end.

(** "Net the amounts": one amount that [debtor] owes [creditor] is taken
    off what the map says [creditor] owes [debtor], and what is left of it is
    added to what [debtor] owes [creditor]. *)
Definition absorb (balanceMap : JsMap Q) (debtor creditor : string) (netAmount : Q)
  : JsMap Q :=
  let key := pairKey debtor creditor in
  let reverseKey := pairKey creditor debtor in
  let currentOwed := getOrZero balanceMap key in
  let currentOwedReverse := getOrZero balanceMap reverseKey in
  if Qgtb currentOwedReverse 0 then
    if Qle_bool netAmount currentOwedReverse then
      map_set balanceMap reverseKey (currentOwedReverse - netAmount)
    else
      map_set (map_set balanceMap reverseKey 0) key
              (currentOwed + (netAmount - currentOwedReverse))
  else
    map_set balanceMap key (currentOwed + netAmount).

(** The body of the inner loop, for one split of an expense paid by
    [payer]: the payer's own split is skipped. *)
Definition netSplit (payer : string) (balanceMap : JsMap Q) (split : ExpenseSplit)
  : JsMap Q :=
  if String.eqb (split_user_id split) payer then balanceMap
  else absorb balanceMap (split_user_id split) payer (share_amount split).

(** The body of the outer loop. *)
Definition netExpense (balanceMap : JsMap Q) (expense : Expense) : JsMap Q :=
  match splits expense with
  | None => balanceMap
  | Some ss => fold_left (netSplit (paid_by expense)) ss balanceMap
  end.

(** The pair map when both loops are done. *)
Definition buildBalanceMap (expenses : list Expense) : JsMap Q :=
  fold_left netExpense expenses [].

(** [new Map(members.map(m => [m.user_id, m.user?.name || 'Unknown']))]:
    a later member with the same id overwrites the name. *)
Definition memberMap (members : list GroupMember) : JsMap string :=
  fold_left (fun m g => map_set m (member_user_id g) (orElse (member_name g) "Unknown"))
            members [].

(** One entry of the pair map turned into a row, or dropped. *)
Definition balanceRow (groupId : string) (names : JsMap string)
           (entry : string * Q) : list UserBalance :=
  let '(key, amt) := entry in
  if Qgtb amt tolerance then
    let '(fromUser, toUser) := keyUsers key in
    [ {| group_id := groupId;
         from_user := fromUser;
         to_user := toUser;
         owes := round2 amt;
         from_user_name := map_get names fromUser;
         to_user_name := map_get names toUser |} ]
  else [].

Definition balanceRows (groupId : string) (names : JsMap string)
           (balanceMap : JsMap Q) : list UserBalance :=
  flat_map (balanceRow groupId names) balanceMap.

(** [expenses] and [members] are what the two awaited reads return. *)
Definition getGroupBalances (groupId : string) (expenses : list Expense)
           (members : list GroupMember) : list UserBalance :=
  balanceRows groupId (memberMap members) (buildBalanceMap expenses).

(** ** simplifyBalances (utils) *)

Record NamedAmount := mkNamed {
  na_name : string;
  na_amount : Q
}.

Definition ensureUser (m : JsMap NamedAmount) (userId : string)
           (name : option string) : JsMap NamedAmount :=
  if map_has m userId then m
  else map_set m userId {| na_name := orElse name "Unknown User"; na_amount := 0 |}.

(** [balanceMap.get(userId)!.amount += delta]: the entry is updated in
    place. *)
Definition addAmount (m : JsMap NamedAmount) (userId : string) (delta : Q)
  : JsMap NamedAmount :=
  match map_get m userId with
  | Some d => map_set m userId {| na_name := na_name d; na_amount := na_amount d + delta |}
  | None => m
  end.

(** The body of [userBalances.forEach]. *)
Definition aggregateRow (m : JsMap NamedAmount) (balance : UserBalance)
  : JsMap NamedAmount :=
  let fromUserId := from_user balance in
  let toUserId := to_user balance in
  let amt := owes balance in
  let m1 := ensureUser m fromUserId (from_user_name balance) in
  let m2 := ensureUser m1 toUserId (to_user_name balance) in
  let m3 := addAmount m2 fromUserId (- amt) in
  addAmount m3 toUserId amt.

Definition aggregateRows (userBalances : list UserBalance) : JsMap NamedAmount :=
  fold_left aggregateRow userBalances [].

Definition simplifiedEntry (entry : string * NamedAmount) : SimplifiedBalance :=
  {| user_id := fst entry;
     user_name := na_name (snd entry);
     net_amount := round2 (na_amount (snd entry)) |}.

Definition simplifyBalances (userBalances : list UserBalance)
  : list SimplifiedBalance :=
  map simplifiedEntry (aggregateRows userBalances).

(** The total of a list of simplified balances. *)
Definition totalBalance (balances : list SimplifiedBalance) : Q :=
  sumQ (map net_amount balances).

(** ** calculateSimplifiedBalances (GroupDetail page) *)

(** [userBalances.get(id) || 0]. *)
Definition currentOf (m : JsMap Q) (k : string) : Q :=
  match map_get m k with
  | Some v => v
  | None => 0
  end.

(** [members.find(m => m.user_id === userId)?.user?.name || 'Unknown']. *)
Definition memberNameOf (members : list GroupMember) (userId : string) : string :=
  match find (fun m => String.eqb (member_user_id m) userId) members with
  | Some m => orElse (member_name m) "Unknown"
  | None => "Unknown"
  end.

Definition calculateSimplifiedBalances (rawBalances : list UserBalance)
           (members : list GroupMember) (currentUserId : string)
  : list SimplifiedBalance :=
  let init :=
    fold_left (fun m g =>
                 if String.eqb (member_user_id g) currentUserId then m
                 else map_set m (member_user_id g) 0)
              members [] in
  let userBalances :=
    fold_left (fun m balance =>
                 if String.eqb (from_user balance) currentUserId then
                   map_set m (to_user balance) (currentOf m (to_user balance) + owes balance)
                 else if String.eqb (to_user balance) currentUserId then
                   map_set m (from_user balance) (currentOf m (from_user balance) - owes balance)
                 else m)
              rawBalances init in
  filter (fun b => Qgtb (Qabs (net_amount b)) tolerance)
         (map (fun entry =>
                 {| user_id := fst entry;
                    user_name := memberNameOf members (fst entry);
                    net_amount := snd entry |})
              userBalances).

(** ** calculateMinCashFlow (utils) *)

(** [nonZeroBalances[i].net_amount]; the loops only read indices in range. *)
Definition amountAt (nz : list SimplifiedBalance) (i : nat) : Q :=
  match nth_error nz i with
  | Some b => net_amount b
  | None => 0
  end.

(** The two scanning loops: start at index 0, replace the index when the
    element at [i] is strictly better, for [i] from 1 to [length - 1]. *)
Definition scanIndex (better : Q -> Q -> bool) (nz : list SimplifiedBalance) : nat :=
  fold_left (fun best i => if better (amountAt nz i) (amountAt nz best) then i else best)
            (seq 1 (List.length nz - 1)) 0%nat.

Definition maxCreditorIndex (nz : list SimplifiedBalance) : nat := scanIndex Qgtb nz.
Definition maxDebtorIndex (nz : list SimplifiedBalance) : nat := scanIndex Qltb nz.

(** [nonZeroBalances[i].net_amount += delta]: the object at index [i] is
    mutated in place. *)
Fixpoint adjustAt (nz : list SimplifiedBalance) (i : nat) (delta : Q)
  : list SimplifiedBalance :=
  match nz, i with
  | [], _ => []
  | b :: r, O =>
      {| user_id := user_id b; user_name := user_name b;
         net_amount := net_amount b + delta |} :: r
  | b :: r, S j => b :: adjustAt r j delta
  end.

(** [nonZeroBalances.splice(i, 1)]. *)
Fixpoint splice {A : Type} (l : list A) (i : nat) : list A :=
  match l, i with
  | [], _ => []
  | _ :: r, O => r
  | x :: r, S j => x :: splice r j
  end.

(** [nonZeroBalances.findIndex(p)]; [None] stands for [-1]. *)
Fixpoint findIndex {A : Type} (p : A -> bool) (l : list A) : option nat :=
  match l with
  | [] => None
  | x :: r => if p x then Some 0%nat else option_map S (findIndex p r)
  end.

(** The end of the loop body, "Remove settled balances": [updated] is the
    array after the two balances were changed, [ci] and [di] the indices the
    scans found, [debtorId] the debtor's [user_id].  (The source also
    decrements [maxDebtorIndex] after the first [splice]; the value is not
    read again, the debtor being looked up with [findIndex].) *)
Definition removeSettled (updated : list SimplifiedBalance) (ci di : nat)
           (debtorId : string) : list SimplifiedBalance :=
  let afterCreditor :=
    if Qle_bool (Qabs (amountAt updated ci)) tolerance
    then splice updated ci else updated in
  if Qle_bool (Qabs (amountAt updated di)) tolerance
     && (0 <? List.length afterCreditor)%nat
  then
    match findIndex (fun b => String.eqb (user_id b) debtorId) afterCreditor with
    | Some k => splice afterCreditor k
    | None => afterCreditor
    end
  else afterCreditor.

(** [creditor.net_amount -= s; debtor.net_amount += s]. *)
Definition updateBalances (nz : list SimplifiedBalance) (ci di : nat) (s : Q)
  : list SimplifiedBalance :=
  adjustAt (adjustAt nz ci (- s)) di s.

(** What one pass through the body of the [while] loop does. *)
Inductive Pass :=
| Break
| Settle (transaction : DebtFlow) (rest : list SimplifiedBalance).

Definition loopBody (nz : list SimplifiedBalance) : Pass :=
  let ci := maxCreditorIndex nz in
  let di := maxDebtorIndex nz in
  match nth_error nz ci, nth_error nz di with
  | Some creditor, Some debtor =>
      if Qle_bool (net_amount creditor) tolerance
         || Qle_bool (- tolerance) (net_amount debtor)
      then Break
      else
        let settlementAmount := Qmin (net_amount creditor) (Qabs (net_amount debtor)) in
        let transaction :=
          {| from := user_id debtor;
             to := user_id creditor;
             flow_amount := round2 settlementAmount;
             fromName := user_name debtor;
             toName := user_name creditor |} in
        Settle transaction
               (removeSettled (updateBalances nz ci di settlementAmount) ci di
                              (user_id debtor))
  | _, _ => Break
  end.

(** The [while] loop.  [fuel] bounds the passes that may still run; the
    result is [None] only when it runs out.  The second component counts the
    passes made. *)
Fixpoint settleLoop (fuel : nat) (nz : list SimplifiedBalance)
         (transactions : list DebtFlow) (passes : nat)
  : option (list DebtFlow * nat) :=
  if (List.length nz <=? 1)%nat then Some (transactions, passes)
  else
    match fuel with
    | O => None
    | S fuel' =>
        match loopBody nz with
        | Break => Some (transactions, S passes)
        | Settle transaction rest =>
            settleLoop fuel' rest (transactions ++ [transaction]) (S passes)
        end
    end.

(** [netBalances.filter(b => Math.abs(b.net_amount) > 0.01)]. *)
Definition nonZero (balances : list SimplifiedBalance) : list SimplifiedBalance :=
  filter (fun b => Qgtb (Qabs (net_amount b)) tolerance) balances.

(** The planner with its pass counter; one unit of fuel per active member. *)
Definition runMinCashFlow (balances : list SimplifiedBalance)
  : option (list DebtFlow * nat) :=
  match balances with
  | [] => Some ([], 0%nat)
  | _ =>
      let nonZeroBalances := nonZero balances in
      match nonZeroBalances with
      | [] => Some ([], 0%nat)
      | _ => settleLoop (List.length nonZeroBalances) nonZeroBalances [] 0%nat
      end
  end.

Definition calculateMinCashFlow (balances : list SimplifiedBalance) : list DebtFlow :=
  match runMinCashFlow balances with
  | Some (transactions, _) => transactions
  | None => []
  end.

(** ** validateCashFlow (utils) *)

Definition validateCashFlow (originalBalances : list SimplifiedBalance)
           (transactions : list DebtFlow) : bool :=
  let originalTotal :=
    fold_left (fun sum balance => sum + net_amount balance) originalBalances 0 in
  let transactionTotal :=
    fold_left (fun sum transaction => sum + flow_amount transaction - flow_amount transaction)
              transactions 0 in
  Qltb (Qabs originalTotal) tolerance && Qltb (Qabs transactionTotal) tolerance.

(** ** Applying a settlement plan *)

(** One transaction applied to one member's balance: the amount is taken
    from the creditor ([to]) and added to the debtor ([from]). *)
Definition applyFlow (t : DebtFlow) (b : SimplifiedBalance) : SimplifiedBalance :=
  {| user_id := user_id b;
     user_name := user_name b;
     net_amount :=
       net_amount b
       - (if String.eqb (to t) (user_id b) then flow_amount t else 0)
       + (if String.eqb (from t) (user_id b) then flow_amount t else 0) |}.

Definition applyPlan (plan : list DebtFlow) (balances : list SimplifiedBalance)
  : list SimplifiedBalance :=
  fold_left (fun bs t => map (applyFlow t) bs) plan balances.

(** ** calculateConfidence (utils, natural-language input) *)

Inductive ExpenseCategory :=
| Food | Entertainment | Travel | Shopping | Bills | Other.

Definition category_eqb (a b : ExpenseCategory) : bool :=
  match a, b with
  | Food, Food | Entertainment, Entertainment | Travel, Travel
  | Shopping, Shopping | Bills, Bills | Other, Other => true
  | _, _ => false
  end.

Record NLPParsedResult := mkParsed {
  parsed_amount : Q;
  parsed_description : string;
  parsed_category : ExpenseCategory;
  parsed_payer : option string;
  parsed_participants : option (list string);
  parsed_date : option string
}.

(** The truth value of a string: the empty string is falsy. *)
Definition nonEmpty (s : string) : bool :=
  match s with
  | EmptyString => false
  | String _ _ => true
  end.

(** The truth value of an optional string: undefined is falsy too. *)
Definition present (s : option string) : bool :=
  match s with
  | Some t => nonEmpty t
  | None => false
  end.

(** The confidence is a whole number; it is kept in [Z]. *)
Definition calculateConfidence (parsed : NLPParsedResult) : Z :=
  let confidence := 0%Z in
  let confidence :=
    if Qgtb (parsed_amount parsed) 0 then (confidence + 40)%Z else confidence in
  let confidence :=
    if nonEmpty (parsed_description parsed)
       && negb (String.eqb (parsed_description parsed) "Expense")
    then (confidence + 30)%Z else confidence in
  let confidence :=
    if negb (category_eqb (parsed_category parsed) Other)
    then (confidence + 15)%Z else confidence in
  let confidence :=
    if present (parsed_date parsed) then (confidence + 10)%Z else confidence in
  let confidence :=
    if present (parsed_payer parsed) then (confidence + 5)%Z else confidence in
  Z.min confidence 100.

(** ** The equal split of the expense forms *)

(** [members.map(m => ({user_id: m.user_id, share_amount:
    Math.round(splitAmount * 100) / 100}))] with [splitAmount = amount /
    members.length], as the manual, the natural-language and the receipt form
    all compute it.  With no member the quotient is not used. *)
Definition equalSplits (amountNum : Q) (members : list GroupMember)
  : list ExpenseSplit :=
  let splitAmount := amountNum / inject_Z (Z.of_nat (List.length members)) in
  map (fun m => {| split_user_id := member_user_id m;
                   share_amount := round2 splitAmount |})
      members.

(** ** smartCategorize (AI service) *)

Record CategoryRule := mkRule {
  rule_keywords : list string;
  rule_category : ExpenseCategory;
  rule_priority : Q
}.

Definition categoryRules : list CategoryRule :=
  [
  {| rule_keywords :=
     [ "breakfast"; "lunch"; "dinner"; "food"; "restaurant"; "cafe"; "coffee";
      "tea"; "snack"; "swiggy"; "zomato"; "dominos"; "pizza"; "burger";
      "biryani"; "thali"; "meal"; "eat"; "dine"; "kitchen"; "cook";
      "grocery"; "vegetables"; "fruits"; "milk"; "bread"; "mcdonalds"; "kfc";
      "starbucks"; "chai"; "samosa"; "vada pav"; "dosa" ];
     rule_category := Food;
     rule_priority := 1 |};
  {| rule_keywords :=
     [ "movie"; "cinema"; "concert"; "show"; "game"; "entertainment";
      "ticket"; "netflix"; "prime"; "spotify"; "bookmyshow"; "pvr"; "inox";
      "theatre"; "party"; "club"; "pub"; "bar"; "dance"; "music"; "event";
      "festival"; "hotstar"; "youtube" ];
     rule_category := Entertainment;
     rule_priority := 2 |};
  {| rule_keywords :=
     [ "uber"; "ola"; "taxi"; "cab"; "bus"; "train"; "flight"; "metro";
      "auto"; "rickshaw"; "petrol"; "diesel"; "gas"; "travel"; "trip";
      "journey"; "commute"; "transport"; "parking"; "toll"; "rapido";
      "irctc"; "makemytrip"; "goibibo"; "redbus"; "airport"; "station";
      "fuel"; "highway"; "road" ];
     rule_category := Travel;
     rule_priority := 2 |};
  {| rule_keywords :=
     [ "shopping"; "clothes"; "mall"; "shop"; "store"; "market"; "amazon";
      "flipkart"; "myntra"; "shoes"; "dress"; "shirt"; "pant"; "fashion";
      "electronics"; "mobile"; "laptop"; "furniture"; "appliance";
      "purchase"; "buy"; "order"; "delivery"; "dmart"; "big bazaar";
      "reliance"; "more"; "spencer" ];
     rule_category := Shopping;
     rule_priority := 2 |};
  {| rule_keywords :=
     [ "rent"; "electricity"; "water"; "wifi"; "internet"; "mobile"; "phone";
      "bill"; "utility"; "recharge"; "subscription"; "emi"; "insurance";
      "maintenance"; "society"; "gas cylinder"; "lpg"; "broadband"; "jio";
      "airtel"; "vi"; "bsnl"; "paytm"; "gpay" ];
     rule_category := Bills;
     rule_priority := 3 |}
  ].

Record BestMatch := mkBest {
  best_category : ExpenseCategory;
  best_score : Q;
  best_matchedKeywords : list string
}.

Record Categorized := mkCategorized {
  cat_category : ExpenseCategory;
  cat_confidence : Z;
  cat_matchedKeywords : list string
}.

Section SmartCategorize.

(** The string methods of the language are taken as they are:
    [s.toLowerCase()], [s.split(/\s+/)] and [s.includes(t)]. *)
Variable toLowerCase : string -> string.
Variable splitWhitespace : string -> list string.
Variable includes : string -> string -> bool.

(** [words.includes(keyword)] on the array of words. *)
Definition isWord (words : list string) (keyword : string) : bool :=
  existsb (String.eqb keyword) words.

(** The body of the loop over the keywords of a rule: the running score and
    the matches so far. *)
Definition scoreKeyword (words : list string) (lowerDesc : string)
           (acc : Q * list string) (keyword : string) : Q * list string :=
  if isWord words keyword then (fst acc + 2, snd acc ++ [keyword])
  else if includes lowerDesc keyword then (fst acc + 1, snd acc ++ [keyword])
  else acc.

(** The body of the loop over the rules. *)
Definition applyRule (words : list string) (lowerDesc : string)
           (bestMatch : BestMatch) (rule : CategoryRule) : BestMatch :=
  let scored := fold_left (scoreKeyword words lowerDesc) (rule_keywords rule) (0, []) in
  let score := fst scored * (1 + rule_priority rule * (1 # 10)) in
  if Qgtb score (best_score bestMatch)
  then {| best_category := rule_category rule;
          best_score := score;
          best_matchedKeywords := snd scored |}
  else bestMatch.

Definition categorizeWith (rules : list CategoryRule) (description : string)
  : Categorized :=
  let lowerDesc := toLowerCase description in
  let words := splitWhitespace lowerDesc in
  let bestMatch :=
    fold_left (applyRule words lowerDesc) rules
              {| best_category := Other; best_score := 0;
                 best_matchedKeywords := [] |} in
  {| cat_category := best_category bestMatch;
     cat_confidence := Z.min 100 (Math_round (best_score bestMatch / 10 * 100));
     cat_matchedKeywords := best_matchedKeywords bestMatch |}.

Definition smartCategorize (description : string) : Categorized :=
  categorizeWith categoryRules description.

End SmartCategorize.

(** * Vocabulary of the properties *)

(** [best] is the first best element among the indices below [a]. *)
Definition firstBest (better : Q -> Q -> bool) (nz : list SimplifiedBalance)
           (a best : nat) : Prop :=
  (best < a)%nat
  /\ (forall j, (j < a)%nat -> better (amountAt nz j) (amountAt nz best) = false)
  /\ (forall j, (j < best)%nat -> better (amountAt nz best) (amountAt nz j) = true).

(** What is known when a pass emits a transaction. *)
Record SettleFacts (nz : list SimplifiedBalance) (transaction : DebtFlow)
       (rest : list SimplifiedBalance) (creditor debtor : SimplifiedBalance) : Prop := {
  sf_creditor : nth_error nz (maxCreditorIndex nz) = Some creditor;
  sf_debtor : nth_error nz (maxDebtorIndex nz) = Some debtor;
  sf_creditor_pos : tolerance < net_amount creditor;
  sf_debtor_neg : net_amount debtor < - tolerance;
  sf_distinct : maxCreditorIndex nz <> maxDebtorIndex nz;
  sf_transaction :
    transaction
    = {| from := user_id debtor;
         to := user_id creditor;
         flow_amount := round2 (Qmin (net_amount creditor) (Qabs (net_amount debtor)));
         fromName := user_name debtor;
         toName := user_name creditor |};
  sf_rest :
    rest
    = removeSettled
        (updateBalances nz (maxCreditorIndex nz) (maxDebtorIndex nz)
                        (Qmin (net_amount creditor) (Qabs (net_amount debtor))))
        (maxCreditorIndex nz) (maxDebtorIndex nz) (user_id debtor)
}.

(** The number of members whose balance exceeds the tolerance in absolute
    value. *)
Definition activeMembers (balances : list SimplifiedBalance) : nat :=
  List.length (filter (fun b => Qgtb (Qabs (net_amount b)) tolerance) balances).

(** Every member is listed once. *)
Definition distinctIds (balances : list SimplifiedBalance) : Prop :=
  NoDup (map user_id balances).

(** One member listed twice, as a creditor and as a debtor. *)
Definition sameMemberTwice : list SimplifiedBalance :=
  [ mkBalance "a" "Asha" 10; mkBalance "a" "Asha" (-10) ].

(** The balances of [testCashFlowAlgorithm]. *)
Definition threeMembers : list SimplifiedBalance :=
  [ mkBalance "A" "Alice" (-60); mkBalance "B" "Bob" 40; mkBalance "C" "Charlie" 20 ].

(** Two balances with a fraction of a paisa. *)
Definition fractionalPaise : list SimplifiedBalance :=
  [ mkBalance "A" "Alice" (10004 # 1000); mkBalance "B" "Bob" (- (10004 # 1000)) ].

(** What one transaction adds to the balance of member [id]. *)
Definition flowEffect (t : DebtFlow) (id : string) : Q :=
  - (if String.eqb (to t) id then flow_amount t else 0)
  + (if String.eqb (from t) id then flow_amount t else 0).

Definition planEffect (plan : list DebtFlow) (id : string) : Q :=
  sumQ (map (fun t => flowEffect t id) plan).

Definition applyAll (plan : list DebtFlow) (b : SimplifiedBalance) : SimplifiedBalance :=
  fold_left (fun b t => applyFlow t b) plan b.

(** The number of entries as a rational. *)
Definition size (l : list SimplifiedBalance) : Q := inject_Z (Z.of_nat (List.length l)).

(** The entry [x] when the loop body takes it out of the array. *)
Definition settledPart (x : SimplifiedBalance) : list SimplifiedBalance :=
  if Qle_bool (Qabs (net_amount x)) tolerance then [x] else [].

(** Every balance is a whole number of paise. *)
Definition wholePaise (l : list SimplifiedBalance) : Prop :=
  forall b, In b l -> is2dp (net_amount b).

(** The bound that the balances of the active list keep: the magnitude of
    their total plus one tolerance for every entry but one. *)
Definition residueBound (l : list SimplifiedBalance) : Q :=
  Qabs (totalBalance l) + (size l - 1) * tolerance.

Definition mentionsOnly (ids : list string) (t : DebtFlow) : Prop :=
  In (from t) ids /\ In (to t) ids.

(** Five balances in whole paise that sum to zero. *)
Definition oddPaise : list SimplifiedBalance :=
  [ mkBalance "A" "Asha" (3 # 100); mkBalance "B" "Bala" (- (2 # 100));
    mkBalance "C" "Chitra" (3 # 100); mkBalance "D" "Dev" (- (2 # 100));
    mkBalance "E" "Esha" (- (2 # 100)) ].

Definition keys {V} (m : JsMap V) : list string := map fst m.

(** A sum over the entries of a map. *)
Definition wsum {V : Type} (weight : string -> V -> Q) (m : JsMap V) : Q :=
  sumQ (map (fun e => weight (fst e) (snd e)) m).

(** The amount that the map holds for member [id], zero when there is no
    entry. *)
Definition amountOf (id : string) (m : JsMap NamedAmount) : Q :=
  match map_get m id with
  | Some d => na_amount d
  | None => 0
  end.

(** What one row adds to member [id]: the amount when [id] is owed it,
    minus the amount when [id] owes it. *)
Definition rowEffect (r : UserBalance) (id : string) : Q :=
  (if String.eqb (to_user r) id then owes r else 0)
  - (if String.eqb (from_user r) id then owes r else 0).

Definition signedTotal (rows : list UserBalance) (id : string) : Q :=
  sumQ (map (fun r => rowEffect r id) rows).

Definition mapTotal (m : JsMap NamedAmount) : Q :=
  wsum (fun _ d => na_amount d) m.

Definition mapPaise (m : JsMap NamedAmount) : Prop :=
  forall e, In e m -> is2dp (na_amount (snd e)).

(** A pays 10 for B, B pays 10 for C. *)
Definition chainExpenses : list Expense :=
  [ mkExpense "e1" 10 "A" (Some [mkSplit "B" 10]);
    mkExpense "e2" 10 "B" (Some [mkSplit "C" 10]) ].

(** A directed obligation, as the specification's builder emits it. *)
Record PairwiseObligation := mkObligation {
  debtor : string;
  creditor : string;
  obligation_amount : Q
}.

Definition notPayer (e : Expense) (s : ExpenseSplit) : bool :=
  negb (String.eqb (split_user_id s) (paid_by e)).

(** The obligations of one expense, in the words of the specification: one
    for each split whose member is not the payer. *)
Definition expenseObligations (e : Expense) : list PairwiseObligation :=
  match splits e with
  | None => []
  | Some ss =>
      map (fun s => mkObligation (split_user_id s) (paid_by e) (share_amount s))
          (filter (notPayer e) ss)
  end.

Definition pairwiseObligations (expenses : list Expense) : list PairwiseObligation :=
  flat_map expenseObligations expenses.

Definition absorbObligation (m : JsMap Q) (o : PairwiseObligation) : JsMap Q :=
  absorb m (debtor o) (creditor o) (obligation_amount o).

(** An expense with the payer's own splits taken out. *)
Definition withoutSelfSplits (e : Expense) : Expense :=
  {| expense_id := expense_id e;
     amount := amount e;
     paid_by := paid_by e;
     splits := option_map (filter (notPayer e)) (splits e) |}.

(** An expense with another total. *)
Definition withAmount (total : Expense -> Q) (e : Expense) : Expense :=
  {| expense_id := expense_id e;
     amount := total e;
     paid_by := paid_by e;
     splits := splits e |}.

(** The validity of an expense, in the words of the specification: no
    negative share, and the shares sum to the total within the tolerance. *)
Definition splitsConsistent (e : Expense) : bool :=
  match splits e with
  | None => true
  | Some ss =>
      forallb (fun s => Qle_bool 0 (share_amount s)) ss
      && Qle_bool (Qabs (sumQ (map share_amount ss) - amount e)) tolerance
  end.

(** A and B each pay 20, split evenly between the two. *)
Definition mutualExpenses : list Expense :=
  [ mkExpense "e1" 20 "A" (Some [mkSplit "A" 10; mkSplit "B" 10]);
    mkExpense "e2" 20 "B" (Some [mkSplit "A" 10; mkSplit "B" 10]) ].

(** An expense of 100 whose shares sum to 80. *)
Definition shortExpense : Expense :=
  mkExpense "e1" 100 "A" (Some [mkSplit "A" 50; mkSplit "B" 30]).

(** An expense of 100 with a negative share. *)
Definition negativeExpense : Expense :=
  mkExpense "e2" 100 "A" (Some [mkSplit "B" (-30); mkSplit "C" 130]).

(** The obligations as rows, for direct signed accumulation. *)
Definition obligationRows (groupId : string) (obligations : list PairwiseObligation)
  : list UserBalance :=
  map (fun o => {| group_id := groupId;
                   from_user := debtor o;
                   to_user := creditor o;
                   owes := obligation_amount o;
                   from_user_name := None;
                   to_user_name := None |})
      obligations.

(** The pair map read as rows as the loops leave it: every entry, with its
    amount as it is (no filter, no rounding). *)
Definition unfilteredRows (groupId : string) (balanceMap : JsMap Q) : list UserBalance :=
  map (fun entry => {| group_id := groupId;
                       from_user := fst (keyUsers (fst entry));
                       to_user := snd (keyUsers (fst entry));
                       owes := snd entry;
                       from_user_name := None;
                       to_user_name := None |})
      balanceMap.

(** The net balance of member [id] in a list of balances, zero when the list
    does not name the member. *)
Definition balanceOf (id : string) (balances : list SimplifiedBalance) : Q :=
  match find (fun b => String.eqb (user_id b) id) balances with
  | Some b => net_amount b
  | None => 0
  end.

(** What an amount [v] under the pair key [key] adds to member [id]. *)
Definition keyEffect (id : string) (key : string) (v : Q) : Q :=
  (if String.eqb (snd (keyUsers key)) id then v else 0)
  - (if String.eqb (fst (keyUsers key)) id then v else 0).

Definition colonFree (obligations : list PairwiseObligation) : Prop :=
  forall o, In o obligations -> noColon (debtor o) = true /\ noColon (creditor o) = true.

(** A triangle of debts, and one debt in a reverse direction. *)
Definition triangle : list PairwiseObligation :=
  [ mkObligation "A" "B" 60; mkObligation "B" "C" 40; mkObligation "C" "A" 20;
    mkObligation "B" "A" 25 ].

(** A pays 10.00 for B, B pays 10.01 for A. *)
Definition nearlyEven : list Expense :=
  [ mkExpense "e1" 10 "A" (Some [mkSplit "B" 10]);
    mkExpense "e2" (1001 # 100) "B" (Some [mkSplit "A" (1001 # 100)]) ].

(** No colon in the payer's id or in the id of a split's member. *)
Definition colonFreeExpenses (expenses : list Expense) : Prop :=
  forall e, In e expenses ->
            noColon (paid_by e) = true
            /\ forall ss s, splits e = Some ss -> In s ss ->
                            noColon (split_user_id s) = true.

(** An obligation between two different members with ids without a colon. *)
Definition properObligation (o : PairwiseObligation) : Prop :=
  noColon (debtor o) = true /\ noColon (creditor o) = true /\ debtor o <> creditor o.

(** Every key of the pair map is the key of two different members. *)
Definition pairKeys (m : JsMap Q) : Prop :=
  forall k, In k (keys m) ->
            exists a b, noColon a = true /\ noColon b = true /\ a <> b /\ k = pairKey a b.

(** No two members owe each other at the same time. *)
Definition oneWay (m : JsMap Q) : Prop :=
  forall a b, noColon a = true -> noColon b = true ->
              ~ (0 < getOrZero m (pairKey a b) /\ 0 < getOrZero m (pairKey b a)).

(** Every entry of the active list stands for an input entry of the same
    member, on the same side of zero and beyond the tolerance. *)
Definition tracksInput (balances nz : list SimplifiedBalance) : Prop :=
  forall b, In b nz ->
            exists b0, In b0 balances /\ user_id b0 = user_id b
                       /\ (0 < net_amount b -> tolerance < net_amount b0)
                       /\ (net_amount b < 0 -> net_amount b0 < - tolerance).

(** [y] lies between zero and [x]. *)
Definition towardsZero (x y : Q) : Prop :=
  (0 <= x -> 0 <= y /\ y <= x) /\ (x <= 0 -> x <= y /\ y <= 0).

(** Builder, then netter. *)
Definition pipelineBalances (groupId : string) (expenses : list Expense)
           (members : list GroupMember) : list SimplifiedBalance :=
  simplifyBalances (getGroupBalances groupId expenses members).

(** What one row adds to member [id] on the page of [currentUserId]: its
    amount when it goes from the current user to the member, the opposite
    of its amount when it goes from the member to the current user. *)
Definition viewEffect (currentUserId : string) (r : UserBalance) (id : string) : Q :=
  if String.eqb (from_user r) currentUserId then
    if String.eqb (to_user r) id then owes r else 0
  else if String.eqb (to_user r) currentUserId then
    if String.eqb (from_user r) id then - owes r else 0
  else 0.

Definition viewTotal (currentUserId : string) (rows : list UserBalance) (id : string) : Q :=
  sumQ (map (fun r => viewEffect currentUserId r id) rows).

(** The two loops of [calculateSimplifiedBalances]. *)
Definition pageInit (members : list GroupMember) (currentUserId : string) : JsMap Q :=
  fold_left (fun m g =>
               if String.eqb (member_user_id g) currentUserId then m
               else map_set m (member_user_id g) 0)
            members [].

Definition pageStep (currentUserId : string) (m : JsMap Q) (balance : UserBalance)
  : JsMap Q :=
  if String.eqb (from_user balance) currentUserId then
    map_set m (to_user balance) (currentOf m (to_user balance) + owes balance)
  else if String.eqb (to_user balance) currentUserId then
    map_set m (from_user balance) (currentOf m (from_user balance) - owes balance)
  else m.

(** The number of members as a rational. *)
Definition size_of (members : list GroupMember) : Q :=
  inject_Z (Z.of_nat (List.length members)).

(** Three members, one of them without a name. *)
Definition trio : list GroupMember :=
  [ mkMember "A" (Some "Asha"); mkMember "B" (Some "Bala"); mkMember "C" None ].

(** The keyword is one of the words, or occurs in the text. *)
Definition matchesKeyword (includes : string -> string -> bool) (words : list string)
           (lowerDesc : string) (keyword : string) : bool :=
  isWord words keyword || includes lowerDesc keyword.

(** Every rule has a priority of at least 1 and a category other than
    'Other'. *)
Definition goodRules (rules : list CategoryRule) : Prop :=
  forall r, In r rules -> 1 <= rule_priority r /\ rule_category r <> Other.

(** Nothing has matched so far. *)
Definition stateNone (includes : string -> string -> bool) (words : list string)
           (lowerDesc : string) (done : list CategoryRule) (b : BestMatch) : Prop :=
  best_category b = Other /\ best_score b == 0 /\ best_matchedKeywords b = []
  /\ forall r, In r done ->
                filter (matchesKeyword includes words lowerDesc) (rule_keywords r) = [].

(** A rule has matched and is the best so far. *)
Definition stateSome (includes : string -> string -> bool) (words : list string)
           (lowerDesc : string) (done : list CategoryRule) (b : BestMatch) : Prop :=
  best_category b <> Other /\ 11 # 10 <= best_score b
  /\ best_matchedKeywords b <> []
  /\ exists r, In r done /\ best_category b = rule_category r
               /\ best_matchedKeywords b
                  = filter (matchesKeyword includes words lowerDesc) (rule_keywords r).

(** * Properties *)

(** ** Comparisons and rounding *)

Lemma Qltb_lt (x y : Q) : Qltb x y = true <-> x < y.
Proof.
  unfold Qltb. rewrite negb_true_iff. split; intro H.
  - apply Qnot_le_lt. intro L. apply Qle_bool_iff in L. congruence.
  - destruct (Qle_bool y x) eqn:E; [|reflexivity].
    apply Qle_bool_iff in E. apply Qle_not_lt in E. contradiction.
Qed.

Lemma Qltb_ge (x y : Q) : Qltb x y = false <-> y <= x.
Proof.
  unfold Qltb. rewrite negb_false_iff. apply Qle_bool_iff.
Qed.

Lemma Qle_bool_gt (x y : Q) : Qle_bool x y = false <-> y < x.
Proof.
  rewrite <- (Qltb_lt y x). unfold Qltb.
  destruct (Qle_bool x y); simpl; split; congruence.
Qed.

Lemma Qfloor_unique (x : Q) (k : Z) :
  inject_Z k <= x -> x < inject_Z (k + 1) -> Qfloor x = k.
Proof.
  intros Hlo Hhi.
  pose proof (Qfloor_le x) as Fl. pose proof (Qlt_floor x) as Fh.
  assert (A : (Qfloor x < k + 1)%Z).
  { rewrite Zlt_Qlt. eapply Qle_lt_trans; eassumption. }
  assert (B : (k < Qfloor x + 1)%Z).
  { rewrite Zlt_Qlt. eapply Qle_lt_trans; eassumption. }
  lia.
Qed.

Lemma Math_round_Z (k : Z) : Math_round (inject_Z k) = k.
Proof.
  unfold Math_round. apply Qfloor_unique.
  - lra.
  - rewrite inject_Z_plus. change (inject_Z 1) with 1. lra.
Qed.

#[export] Instance Math_round_comp : Proper (Qeq ==> eq) Math_round.
Proof.
  intros x y E. unfold Math_round. now rewrite E.
Qed.

#[export] Instance round2_comp : Proper (Qeq ==> Qeq) round2.
Proof.
  intros x y E. unfold round2. now rewrite E.
Qed.

Lemma round2_is2dp (x : Q) : is2dp (round2 x).
Proof.
  exists (Math_round (x * 100)). reflexivity.
Qed.

Lemma round2_2dp (x : Q) : is2dp x -> round2 x == x.
Proof.
  intros [k E]. unfold round2.
  assert (R : x * 100 == inject_Z k) by (rewrite E; field).
  rewrite R, Math_round_Z. symmetry. exact E.
Qed.

#[export] Instance is2dp_comp : Proper (Qeq ==> iff) is2dp.
Proof.
  intros x y E. unfold is2dp. split; intros [k H]; exists k.
  - now rewrite <- E.
  - now rewrite E.
Qed.

Lemma is2dp_0 : is2dp 0.
Proof. exists 0%Z. reflexivity. Qed.

Lemma is2dp_plus (x y : Q) : is2dp x -> is2dp y -> is2dp (x + y).
Proof.
  intros [a A] [b B]. exists (a + b)%Z.
  rewrite inject_Z_plus, A, B. field.
Qed.

Lemma is2dp_opp (x : Q) : is2dp x -> is2dp (- x).
Proof.
  intros [a A]. exists (- a)%Z.
  rewrite inject_Z_opp, A. field.
Qed.

Lemma is2dp_minus (x y : Q) : is2dp x -> is2dp y -> is2dp (x - y).
Proof.
  intros X Y. apply is2dp_plus; [assumption | now apply is2dp_opp].
Qed.

Lemma is2dp_abs (x : Q) : is2dp x -> is2dp (Qabs x).
Proof.
  intro X. apply Qabs_case; intros _; [assumption | now apply is2dp_opp].
Qed.

Lemma is2dp_min (x y : Q) : is2dp x -> is2dp y -> is2dp (Qmin x y).
Proof.
  intros X Y. destruct (Q.min_spec x y) as [[_ E] | [_ E]]; now rewrite E.
Qed.

(** A number above one paisa rounds to at least one paisa. *)
Lemma round2_pos (x : Q) : tolerance < x -> tolerance <= round2 x.
Proof.
  unfold tolerance, round2, Math_round. intro H.
  assert (F : (1 <= Qfloor (x * 100 + (1 # 2)))%Z).
  { apply (Qfloor_resp_le 1 (x * 100 + (1 # 2))). lra. }
  rewrite Zle_Qle in F. change (inject_Z 1) with 1 in F.
  apply Qle_shift_div_l; [reflexivity|].
  setoid_replace ((1 # 100) * 100) with 1 by reflexivity. exact F.
Qed.

Lemma sumQ_app (l r : list Q) : sumQ (l ++ r) == sumQ l + sumQ r.
Proof.
  induction l as [|x l IH]; simpl; [lra | rewrite IH; lra].
Qed.

#[export] Instance Qltb_comp : Proper (Qeq ==> Qeq ==> eq) Qltb.
Proof.
  intros x x' Ex y y' Ey. unfold Qltb. now rewrite Ex, Ey.
Qed.

Lemma fold_total (balances : list SimplifiedBalance) (acc : Q) :
  fold_left (fun sum balance => sum + net_amount balance) balances acc
  == acc + totalBalance balances.
Proof.
  revert acc. unfold totalBalance.
  induction balances as [|b bs IH]; intro acc; simpl.
  - lra.
  - rewrite IH. lra.
Qed.

Lemma fold_transactionTotal (transactions : list DebtFlow) (acc : Q) :
  fold_left (fun sum transaction => sum + flow_amount transaction - flow_amount transaction)
            transactions acc == acc.
Proof.
  revert acc. induction transactions as [|t ts IH]; intro acc; simpl.
  - reflexivity.
  - rewrite IH. lra.
Qed.

(** ** Lists: in-place update, splice, findIndex *)

Lemma adjustAt_length nz i delta :
  List.length (adjustAt nz i delta) = List.length nz.
Proof.
  revert i. induction nz as [|b r IH]; intros [|j]; simpl; auto.
Qed.

Lemma adjustAt_ids nz i delta :
  map user_id (adjustAt nz i delta) = map user_id nz.
Proof.
  revert i. induction nz as [|b r IH]; intros [|j]; simpl; auto.
  now rewrite IH.
Qed.

Lemma adjustAt_nth_same nz i delta b :
  nth_error nz i = Some b ->
  nth_error (adjustAt nz i delta) i
  = Some {| user_id := user_id b; user_name := user_name b;
            net_amount := net_amount b + delta |}.
Proof.
  revert i. induction nz as [|x r IH]; intros [|j] H; simpl in *; try discriminate.
  - now inversion H.
  - now apply IH.
Qed.

Lemma adjustAt_nth_other nz i j delta :
  i <> j -> nth_error (adjustAt nz i delta) j = nth_error nz j.
Proof.
  revert i j. induction nz as [|x r IH]; intros [|i] [|j] H; simpl; auto;
    try congruence.
Qed.

Lemma splice_length {A} (l : list A) i :
  (i < List.length l)%nat -> S (List.length (splice l i)) = List.length l.
Proof.
  revert i. induction l as [|x r IH]; intros [|j] H; simpl in *; try lia.
  rewrite IH; lia.
Qed.

Lemma splice_length_le {A} (l : list A) i :
  (List.length (splice l i) <= List.length l)%nat.
Proof.
  revert i. induction l as [|x r IH]; intros [|j]; simpl; auto.
  specialize (IH j). lia.
Qed.

Lemma splice_In {A} (l : list A) i x : In x (splice l i) -> In x l.
Proof.
  revert i. induction l as [|y r IH]; intros [|j] H; simpl in *; auto.
  destruct H as [H|H]; eauto.
Qed.

Lemma findIndex_Some {A} (p : A -> bool) l k :
  findIndex p l = Some k ->
  exists x, nth_error l k = Some x /\ p x = true
            /\ forall j y, (j < k)%nat -> nth_error l j = Some y -> p y = false.
Proof.
  revert k. induction l as [|x r IH]; intros k H; simpl in H; [discriminate|].
  destruct (p x) eqn:P.
  - inversion H; subst. exists x. repeat split; auto. intros j y Hj. lia.
  - destruct (findIndex p r) as [k'|] eqn:F; simpl in H; [|discriminate].
    inversion H; subst. destruct (IH k' eq_refl) as (y & N & Py & First).
    exists y. repeat split; auto.
    intros [|j] z Hj Hz; simpl in Hz.
    + now inversion Hz; subst.
    + apply (First j); [lia | assumption].
Qed.

Lemma findIndex_None {A} (p : A -> bool) l x :
  findIndex p l = None -> In x l -> p x = false.
Proof.
  induction l as [|y r IH]; simpl; intros H I; [contradiction|].
  destruct (p y) eqn:P; [discriminate|].
  destruct (findIndex p r); [discriminate|].
  destruct I as [->|I]; auto.
Qed.

(** ** The scanning loops *)

Section Scan.
Variable better : Q -> Q -> bool.
Variable nz : list SimplifiedBalance.

Let pick (best i : nat) : nat :=
  if better (amountAt nz i) (amountAt nz best) then i else best.

Lemma scan_in_range n a best :
  (best < a)%nat -> (fold_left pick (seq a n) best < a + n)%nat.
Proof.
  revert a best. induction n as [|n IH]; intros a best H; simpl; [lia|].
  replace (a + S n)%nat with (S a + n)%nat by lia.
  apply IH. unfold pick. destruct (better _ _); lia.
Qed.

Hypothesis better_irrefl : forall x, better x x = false.
Hypothesis better_trans :
  forall x y z, better x y = true -> better y z = true -> better x z = true.
Hypothesis better_split :
  forall x y z, better x y = true -> better x z = true \/ better z y = true.

Lemma scan_firstBest n a best :
  firstBest better nz a best ->
  firstBest better nz (a + n) (fold_left pick (seq a n) best).
Proof.
  revert a best. induction n as [|n IH]; intros a best H; simpl.
  - now rewrite Nat.add_0_r.
  - replace (a + S n)%nat with (S a + n)%nat by lia.
    apply IH. destruct H as (Hlt & Hmax & Hfirst).
    unfold pick. destruct (better (amountAt nz a) (amountAt nz best)) eqn:B.
    + split; [lia|]. split.
      * intros j Hj. destruct (Nat.eq_dec j a) as [->|Hne]; [apply better_irrefl|].
        destruct (better (amountAt nz j) (amountAt nz a)) eqn:C; [|reflexivity].
        rewrite <- (Hmax j) by lia. symmetry. eapply better_trans; eassumption.
      * intros j Hj. destruct (better_split _ _ (amountAt nz j) B) as [C|C]; [assumption|].
        rewrite Hmax in C by lia. discriminate.
    + split; [lia|]. split; [|assumption].
      intros j Hj. destruct (Nat.eq_dec j a) as [->|Hne]; [assumption|].
      apply Hmax. lia.
Qed.

Lemma scanIndex_firstBest :
  nz <> [] -> firstBest better nz (List.length nz) (scanIndex better nz).
Proof.
  intro NE. unfold scanIndex.
  assert (L : List.length nz = (1 + (List.length nz - 1))%nat).
  { destruct nz; [congruence | simpl; lia]. }
  rewrite L at 1. apply scan_firstBest.
  split; [lia|]. split.
  - intros j Hj. replace j with 0%nat by lia. apply better_irrefl.
  - intros j Hj. lia.
Qed.
End Scan.

Lemma scanIndex_lt better nz :
  nz <> [] -> (scanIndex better nz < List.length nz)%nat.
Proof.
  intro NE. unfold scanIndex.
  assert (L : List.length nz = (1 + (List.length nz - 1))%nat).
  { destruct nz; [congruence | simpl; lia]. }
  rewrite L at 2. apply scan_in_range. lia.
Qed.

Lemma maxCreditorIndex_spec nz :
  nz <> [] ->
  (maxCreditorIndex nz < List.length nz)%nat
  /\ (forall j, (j < List.length nz)%nat ->
                amountAt nz j <= amountAt nz (maxCreditorIndex nz))
  /\ (forall j, (j < maxCreditorIndex nz)%nat ->
                amountAt nz j < amountAt nz (maxCreditorIndex nz)).
Proof.
  intro NE.
  destruct (scanIndex_firstBest Qgtb nz) as (R & M & F); auto.
  - intro x. apply Qltb_ge. lra.
  - intros x y z. unfold Qgtb. rewrite !Qltb_lt. lra.
  - intros x y z. unfold Qgtb. rewrite !Qltb_lt. lra.
  - split; [exact R|]. split.
    + intros j Hj. apply Qltb_ge. apply (M j Hj).
    + intros j Hj. apply Qltb_lt. apply (F j Hj).
Qed.

Lemma maxDebtorIndex_spec nz :
  nz <> [] ->
  (maxDebtorIndex nz < List.length nz)%nat
  /\ (forall j, (j < List.length nz)%nat ->
                amountAt nz (maxDebtorIndex nz) <= amountAt nz j)
  /\ (forall j, (j < maxDebtorIndex nz)%nat ->
                amountAt nz (maxDebtorIndex nz) < amountAt nz j).
Proof.
  intro NE.
  destruct (scanIndex_firstBest Qltb nz) as (R & M & F); auto.
  - intro x. apply Qltb_ge. lra.
  - intros x y z. rewrite !Qltb_lt. lra.
  - intros x y z. rewrite !Qltb_lt. lra.
  - split; [exact R|]. split.
    + intros j Hj. apply Qltb_ge. apply (M j Hj).
    + intros j Hj. apply Qltb_lt. apply (F j Hj).
Qed.

(** ** One pass of the settlement loop *)

Lemma amountAt_nth nz i b : nth_error nz i = Some b -> amountAt nz i = net_amount b.
Proof. unfold amountAt. now intros ->. Qed.

Lemma loopBody_Settle nz transaction rest :
  loopBody nz = Settle transaction rest ->
  exists creditor debtor, SettleFacts nz transaction rest creditor debtor.
Proof.
  unfold loopBody. intro H.
  destruct (nth_error nz (maxCreditorIndex nz)) as [creditor|] eqn:C; [|discriminate].
  destruct (nth_error nz (maxDebtorIndex nz)) as [debtor|] eqn:D; [|discriminate].
  destruct (Qle_bool (net_amount creditor) tolerance) eqn:Lc; [discriminate|].
  destruct (Qle_bool (- tolerance) (net_amount debtor)) eqn:Ld; [discriminate|].
  simpl in H. inversion H; subst; clear H.
  apply Qle_bool_gt in Lc. apply Qle_bool_gt in Ld.
  exists creditor, debtor. constructor; auto.
  intro E. rewrite E in C. rewrite C in D. inversion D; subst.
  unfold tolerance in *. lra.
Qed.

Lemma settlement_amount c d :
  tolerance < c -> d < - tolerance ->
  let s := Qmin c (Qabs d) in
  tolerance < s /\ ((s == c /\ c <= - d) \/ (s == - d /\ - d <= c)).
Proof.
  intros Hc Hd s. unfold tolerance in *.
  assert (A : Qabs d == - d) by (apply Qabs_neg; lra).
  subst s. destruct (Q.min_spec c (Qabs d)) as [[L E] | [L E]]; rewrite E.
  - split; [lra|]. left. split; [reflexivity | lra].
  - split; [lra|]. right. split; lra.
Qed.

Lemma updateBalances_length nz ci di s :
  List.length (updateBalances nz ci di s) = List.length nz.
Proof. unfold updateBalances. now rewrite !adjustAt_length. Qed.

Lemma updateBalances_ids nz ci di s :
  map user_id (updateBalances nz ci di s) = map user_id nz.
Proof. unfold updateBalances. now rewrite !adjustAt_ids. Qed.

Lemma updateBalances_creditor nz ci di s creditor :
  ci <> di -> nth_error nz ci = Some creditor ->
  nth_error (updateBalances nz ci di s) ci
  = Some {| user_id := user_id creditor; user_name := user_name creditor;
            net_amount := net_amount creditor + - s |}.
Proof.
  intros N C. unfold updateBalances.
  rewrite adjustAt_nth_other by congruence. now apply adjustAt_nth_same.
Qed.

Lemma updateBalances_debtor nz ci di s debtor :
  ci <> di -> nth_error nz di = Some debtor ->
  nth_error (updateBalances nz ci di s) di
  = Some {| user_id := user_id debtor; user_name := user_name debtor;
            net_amount := net_amount debtor + s |}.
Proof.
  intros N D. unfold updateBalances.
  apply adjustAt_nth_same. now rewrite adjustAt_nth_other.
Qed.

Lemma updateBalances_other nz ci di s j :
  j <> ci -> j <> di ->
  nth_error (updateBalances nz ci di s) j = nth_error nz j.
Proof.
  intros A B. unfold updateBalances.
  rewrite !adjustAt_nth_other; congruence.
Qed.

Lemma nth_error_lt {A} (l : list A) i x :
  nth_error l i = Some x -> (i < List.length l)%nat.
Proof.
  intro H. apply nth_error_Some. congruence.
Qed.

(** Every pass that emits a transaction removes at least one entry. *)
Lemma loopBody_shrinks nz transaction rest :
  loopBody nz = Settle transaction rest ->
  (List.length rest < List.length nz)%nat.
Proof.
  intro H. destruct (loopBody_Settle _ _ _ H) as (creditor & debtor & F).
  destruct F as [C D Hc Hd N _ ->].
  set (s := Qmin (net_amount creditor) (Qabs (net_amount debtor))).
  set (ci := maxCreditorIndex nz) in *. set (di := maxDebtorIndex nz) in *.
  pose proof (updateBalances_creditor nz ci di s creditor N C) as UC.
  pose proof (updateBalances_debtor nz ci di s debtor N D) as UD.
  pose proof (updateBalances_length nz ci di s) as UL.
  set (updated := updateBalances nz ci di s) in *.
  pose proof (nth_error_lt _ _ _ UC) as Lci.
  destruct (settlement_amount _ _ Hc Hd) as (_ & [[E _] | [E _]]); fold s in E.
  - (* the creditor is paid in full *)
    unfold removeSettled.
    rewrite (amountAt_nth _ _ _ UC). simpl net_amount.
    assert (Z : Qle_bool (Qabs (net_amount creditor + - s)) tolerance = true).
    { apply Qle_bool_iff. rewrite E.
      setoid_replace (net_amount creditor + - net_amount creditor) with 0 by ring.
      unfold tolerance. simpl. lra. }
    rewrite Z. pose proof (splice_length updated ci Lci) as SL.
    destruct (_ && _); [|lia].
    destruct (findIndex _ _) as [k|]; [|lia].
    pose proof (splice_length_le (splice updated ci) k). lia.
  - (* the debtor pays in full *)
    unfold removeSettled.
    rewrite (amountAt_nth _ _ _ UD). simpl net_amount.
    assert (Z : Qle_bool (Qabs (net_amount debtor + s)) tolerance = true).
    { apply Qle_bool_iff. rewrite E.
      setoid_replace (net_amount debtor + - net_amount debtor) with 0 by ring.
      unfold tolerance. simpl. lra. }
    rewrite Z. destruct (Qle_bool (Qabs (amountAt updated ci)) tolerance).
    + pose proof (splice_length updated ci Lci) as SL.
      destruct (_ && _); [|lia].
      destruct (findIndex _ _) as [k|]; [|lia].
      pose proof (splice_length_le (splice updated ci) k). lia.
    + assert (P : (0 <? List.length updated)%nat = true) by (apply Nat.ltb_lt; lia).
      rewrite P. simpl.
      destruct (findIndex _ updated) as [k|] eqn:Fi.
      * destruct (findIndex_Some _ _ _ Fi) as (x & Nx & _).
        pose proof (splice_length updated k (nth_error_lt _ _ _ Nx)). lia.
      * apply nth_error_In in UD.
        pose proof (findIndex_None _ _ _ Fi UD) as Bad. simpl in Bad.
        rewrite String.eqb_refl in Bad. discriminate.
Qed.

(** ** The settlement loop as a whole *)

(** The loop only appends to the transaction list and adds to the pass
    counter. *)
Lemma settleLoop_acc fuel nz transactions passes :
  settleLoop fuel nz transactions passes
  = match settleLoop fuel nz [] 0%nat with
    | Some (out, q) => Some (transactions ++ out, (passes + q)%nat)
    | None => None
    end.
Proof.
  revert nz transactions passes.
  induction fuel as [|fuel IH]; intros nz transactions passes; simpl;
    destruct (List.length nz <=? 1)%nat;
    rewrite ?app_nil_r, ?Nat.add_0_r; auto.
  destruct (loopBody nz) as [|t rest].
  - now rewrite app_nil_r, Nat.add_1_r.
  - rewrite (IH rest (transactions ++ [t]) (S passes)).
    rewrite (IH rest [t] 1%nat).
    destruct (settleLoop fuel rest [] 0%nat) as [[out q]|]; [|reflexivity].
    simpl. rewrite <- app_assoc. simpl. do 2 f_equal. lia.
Qed.

(** With one unit of fuel per entry the loop reaches its end, after at most
    [length - 1] passes, each of which emitted at most one transaction. *)
Lemma settleLoop_terminates fuel nz :
  (List.length nz <= fuel)%nat ->
  exists out q,
    settleLoop fuel nz [] 0%nat = Some (out, q)
    /\ (q <= List.length nz - 1)%nat
    /\ (List.length out <= q)%nat.
Proof.
  revert nz. induction fuel as [|fuel IH]; intros nz Hf; simpl.
  - destruct (List.length nz <=? 1)%nat eqn:L.
    + exists [], 0%nat. simpl. repeat split; lia.
    + apply Nat.leb_gt in L. lia.
  - destruct (List.length nz <=? 1)%nat eqn:L.
    + exists [], 0%nat. simpl. repeat split; lia.
    + apply Nat.leb_gt in L.
      destruct (loopBody nz) as [|t rest] eqn:B.
      * exists [], 1%nat. simpl. repeat split; lia.
      * pose proof (loopBody_shrinks _ _ _ B) as Sh.
        destruct (IH rest) as (out & q & E & Hq & Ho); [lia|].
        rewrite settleLoop_acc, E.
        exists (t :: out), (S q). simpl. repeat split; lia.
Qed.

(** A property of the active list that every pass keeps gives a property of
    every emitted transaction. *)
Lemma settleLoop_all (Inv : list SimplifiedBalance -> Prop) (P : DebtFlow -> Prop) :
  (forall nz t rest, Inv nz -> loopBody nz = Settle t rest -> P t /\ Inv rest) ->
  forall fuel nz out q,
    Inv nz -> settleLoop fuel nz [] 0%nat = Some (out, q) -> Forall P out.
Proof.
  intros Step fuel. induction fuel as [|fuel IH]; intros nz out q I H; simpl in H.
  - destruct (List.length nz <=? 1)%nat; inversion H; constructor.
  - destruct (List.length nz <=? 1)%nat; [inversion H; constructor|].
    destruct (loopBody nz) as [|t rest] eqn:B; [inversion H; constructor|].
    destruct (Step _ _ _ I B) as [Pt Ir].
    rewrite settleLoop_acc in H.
    destruct (settleLoop fuel rest [] 0%nat) as [[out' q']|] eqn:E; [|discriminate].
    inversion H; subst. simpl. constructor; [assumption|].
    eapply IH; eassumption.
Qed.

Lemma runMinCashFlow_loop balances :
  runMinCashFlow balances
  = settleLoop (List.length (nonZero balances)) (nonZero balances) [] 0%nat.
Proof.
  unfold runMinCashFlow. destruct balances as [|b bs]; [reflexivity|].
  destruct (nonZero (b :: bs)); reflexivity.
Qed.



(** ** Distinct user ids *)

Lemma splice_map {A B} (f : A -> B) (l : list A) i :
  map f (splice l i) = splice (map f l) i.
Proof.
  revert i. induction l as [|x r IH]; intros [|j]; simpl; auto.
  now rewrite IH.
Qed.

Lemma splice_NoDup {A} (l : list A) i : NoDup l -> NoDup (splice l i).
Proof.
  revert i. induction l as [|x r IH]; intros [|j] H; simpl; auto.
  - now inversion H.
  - inversion H; subst. constructor; auto.
    intro I. apply splice_In in I. contradiction.
Qed.

Lemma distinctIds_splice l i : distinctIds l -> distinctIds (splice l i).
Proof.
  unfold distinctIds. rewrite splice_map. apply splice_NoDup.
Qed.

Lemma distinctIds_filter (p : SimplifiedBalance -> bool) l :
  distinctIds l -> distinctIds (filter p l).
Proof.
  unfold distinctIds. induction l as [|x r IH]; simpl; intro H; [constructor|].
  inversion H; subst. destruct (p x); simpl; auto.
  constructor; auto. intro I. apply in_map_iff in I.
  destruct I as (y & E & I). apply filter_In in I. destruct I as [I _].
  apply H2. rewrite <- E. now apply in_map.
Qed.

Lemma distinctIds_nth l i j x y :
  distinctIds l -> nth_error l i = Some x -> nth_error l j = Some y ->
  user_id x = user_id y -> i = j.
Proof.
  intros N X Y E.
  apply (proj1 (NoDup_nth_error (map user_id l)) N).
  - rewrite length_map. eapply nth_error_lt; eassumption.
  - rewrite !nth_error_map, X, Y. simpl. now rewrite E.
Qed.

Lemma distinctIds_In l x y :
  distinctIds l -> In x l -> In y l -> user_id x = user_id y -> x = y.
Proof.
  intros N X Y E.
  destruct (In_nth_error _ _ X) as (i & Hi).
  destruct (In_nth_error _ _ Y) as (j & Hj).
  assert (i = j) by (eapply distinctIds_nth; eassumption).
  subst. congruence.
Qed.

Lemma removeSettled_distinct updated ci di debtorId :
  distinctIds updated -> distinctIds (removeSettled updated ci di debtorId).
Proof.
  intro N. unfold removeSettled.
  set (afterCreditor := if Qle_bool _ _ then _ else _).
  assert (NA : distinctIds afterCreditor).
  { subst afterCreditor. destruct (Qle_bool _ _); auto using distinctIds_splice. }
  destruct (_ && _); auto.
  destruct (findIndex _ _); auto using distinctIds_splice.
Qed.

Lemma removeSettled_incl updated ci di debtorId :
  incl (removeSettled updated ci di debtorId) updated.
Proof.
  unfold removeSettled.
  set (afterCreditor := if Qle_bool _ _ then _ else _).
  assert (IA : incl afterCreditor updated).
  { subst afterCreditor. destruct (Qle_bool _ _).
    - intros x. apply splice_In.
    - apply incl_refl. }
  destruct (_ && _); auto.
  destruct (findIndex _ _); auto.
  intros x I. apply IA. eapply splice_In; eassumption.
Qed.

Lemma loopBody_distinct nz t rest :
  distinctIds nz -> loopBody nz = Settle t rest -> distinctIds rest.
Proof.
  intros N H. destruct (loopBody_Settle _ _ _ H) as (creditor & debtor & F).
  rewrite (sf_rest _ _ _ _ _ F). apply removeSettled_distinct.
  unfold distinctIds. now rewrite updateBalances_ids.
Qed.

(** The ids that remain after a pass were there before it. *)
Lemma loopBody_ids nz t rest :
  loopBody nz = Settle t rest -> incl (map user_id rest) (map user_id nz).
Proof.
  intro H. destruct (loopBody_Settle _ _ _ H) as (creditor & debtor & F).
  rewrite (sf_rest _ _ _ _ _ F).
  eapply incl_tran; [apply incl_map, removeSettled_incl|].
  rewrite updateBalances_ids. apply incl_refl.
Qed.

Lemma loopBody_wellformed nz t rest :
  distinctIds nz -> loopBody nz = Settle t rest ->
  0 < flow_amount t /\ from t <> to t.
Proof.
  intros N H. destruct (loopBody_Settle _ _ _ H) as (creditor & debtor & F).
  destruct F as [C D Hc Hd Ne -> _]. simpl. split.
  - destruct (settlement_amount _ _ Hc Hd) as (S & _).
    apply round2_pos in S. unfold tolerance in S. lra.
  - intro E. apply Ne. symmetry. eapply distinctIds_nth; eassumption.
Qed.

(** C9, as far as it holds.  When the balance list names every member once,
    every transaction that [calculateMinCashFlow] returns has a strictly
    positive amount and goes from one member to a different one. *)
Theorem calculateMinCashFlow_wellformed (balances : list SimplifiedBalance) :
  distinctIds balances ->
  forall t, In t (calculateMinCashFlow balances) ->
            0 < flow_amount t /\ from t <> to t.
Proof.
  intros N t I. unfold calculateMinCashFlow in I.
  rewrite runMinCashFlow_loop in I.
  destruct (settleLoop _ _ _ _) as [[out q]|] eqn:E; [|contradiction].
  revert t I. apply Forall_forall.
  apply (settleLoop_all distinctIds (fun t => 0 < flow_amount t /\ from t <> to t))
    with (fuel := List.length (nonZero balances)) (nz := nonZero balances) (q := q).
  - intros nz t rest Inv B. split.
    + eapply loopBody_wellformed; eassumption.
    + eapply loopBody_distinct; eassumption.
  - now apply distinctIds_filter.
  - exact E.
Qed.

(** C9 witness: the one transaction of a two-member list. *)
Lemma calculateMinCashFlow_wellformed_witness :
  0 < flow_amount (mkFlow "b" "a" (round2 10) "Bala" "Asha")
  /\ from (mkFlow "b" "a" (round2 10) "Bala" "Asha")
     <> to (mkFlow "b" "a" (round2 10) "Bala" "Asha").
Proof.
  apply (calculateMinCashFlow_wellformed
           [mkBalance "a" "Asha" 10; mkBalance "b" "Bala" (-10)]).
  - unfold distinctIds. simpl.
    repeat constructor; simpl; intuition discriminate.
  - vm_compute. left. reflexivity.
Defined.

(** C9 as stated fails when the list names a member twice: the planner
    pairs the two entries and the payment goes from "a" to "a". *)
Lemma calculateMinCashFlow_self_payment :
  ~ (forall t, In t (calculateMinCashFlow sameMemberTwice) ->
               0 < flow_amount t /\ from t <> to t).
Proof.
  intro H.
  destruct (H (mkFlow "a" "a" (round2 (Qmin 10 (Qabs (-10)))) "Asha" "Asha")) as [_ Ne].
  - left. reflexivity.
  - apply Ne. reflexivity.
Qed.

(** ** The greedy step *)

Lemma nth_error_amountAt nz j b :
  nth_error nz j = Some b -> net_amount b = amountAt nz j.
Proof. intro H. symmetry. now apply amountAt_nth. Qed.

(** C5, as far as it holds.  In every pass that emits a transaction the
    creditor is the first entry with the largest balance, the debtor the
    first entry with the smallest balance, the transaction goes from the
    debtor to the creditor, and its amount is min(creditor's balance,
    -debtor's balance) rounded to two decimals; for balances in whole paise
    the rounding changes nothing. *)
Theorem loopBody_greedy_step (nz : list SimplifiedBalance)
        (t : DebtFlow) (rest : list SimplifiedBalance) :
  loopBody nz = Settle t rest ->
  exists creditor debtor,
    nth_error nz (maxCreditorIndex nz) = Some creditor
    /\ nth_error nz (maxDebtorIndex nz) = Some debtor
    /\ (forall j b, nth_error nz j = Some b -> net_amount b <= net_amount creditor)
    /\ (forall j b, (j < maxCreditorIndex nz)%nat -> nth_error nz j = Some b ->
                    net_amount b < net_amount creditor)
    /\ (forall j b, nth_error nz j = Some b -> net_amount debtor <= net_amount b)
    /\ (forall j b, (j < maxDebtorIndex nz)%nat -> nth_error nz j = Some b ->
                    net_amount debtor < net_amount b)
    /\ from t = user_id debtor
    /\ to t = user_id creditor
    /\ flow_amount t == round2 (Qmin (net_amount creditor) (- net_amount debtor))
    /\ (is2dp (net_amount creditor) -> is2dp (net_amount debtor) ->
        flow_amount t == Qmin (net_amount creditor) (- net_amount debtor)).
Proof.
  intro H. destruct (loopBody_Settle _ _ _ H) as (creditor & debtor & F).
  destruct F as [C D Hc Hd Ne -> _].
  assert (NE : nz <> []) by (intro E; subst; destruct (maxCreditorIndex []); discriminate).
  destruct (maxCreditorIndex_spec nz NE) as (_ & Cmax & Cfirst).
  destruct (maxDebtorIndex_spec nz NE) as (_ & Dmin & Dfirst).
  rewrite (amountAt_nth _ _ _ C) in Cmax, Cfirst.
  rewrite (amountAt_nth _ _ _ D) in Dmin, Dfirst.
  assert (A : Qmin (net_amount creditor) (Qabs (net_amount debtor))
              == Qmin (net_amount creditor) (- net_amount debtor)).
  { assert (Ab : Qabs (net_amount debtor) == - net_amount debtor)
      by (apply Qabs_neg; unfold tolerance in Hd; lra).
    destruct (Q.min_spec (net_amount creditor) (Qabs (net_amount debtor))) as [[L E]|[L E]];
      destruct (Q.min_spec (net_amount creditor) (- net_amount debtor)) as [[L' E']|[L' E']];
      rewrite E, E'; lra. }
  exists creditor, debtor. simpl.
  repeat match goal with |- _ /\ _ => split end; auto.
  - intros j b Hb. rewrite (nth_error_amountAt _ _ _ Hb).
    apply Cmax. eapply nth_error_lt; eassumption.
  - intros j b Hj Hb. rewrite (nth_error_amountAt _ _ _ Hb). now apply Cfirst.
  - intros j b Hb. rewrite (nth_error_amountAt _ _ _ Hb).
    apply Dmin. eapply nth_error_lt; eassumption.
  - intros j b Hj Hb. rewrite (nth_error_amountAt _ _ _ Hb). now apply Dfirst.
  - now rewrite A.
  - intros Pc Pd. rewrite A. apply round2_2dp.
    apply is2dp_min; [assumption | now apply is2dp_opp].
Qed.

(** C5 witness: the first pass on the balances of [testCashFlowAlgorithm]. *)
Lemma loopBody_greedy_step_witness :
  exists creditor debtor,
    nth_error threeMembers (maxCreditorIndex threeMembers) = Some creditor
    /\ nth_error threeMembers (maxDebtorIndex threeMembers) = Some debtor
    /\ (forall j b, nth_error threeMembers j = Some b -> net_amount b <= net_amount creditor)
    /\ (forall j b, (j < maxCreditorIndex threeMembers)%nat ->
                    nth_error threeMembers j = Some b ->
                    net_amount b < net_amount creditor)
    /\ (forall j b, nth_error threeMembers j = Some b -> net_amount debtor <= net_amount b)
    /\ (forall j b, (j < maxDebtorIndex threeMembers)%nat ->
                    nth_error threeMembers j = Some b ->
                    net_amount debtor < net_amount b)
    /\ from (mkFlow "A" "B" (round2 40) "Alice" "Bob") = user_id debtor
    /\ to (mkFlow "A" "B" (round2 40) "Alice" "Bob") = user_id creditor
    /\ flow_amount (mkFlow "A" "B" (round2 40) "Alice" "Bob")
       == round2 (Qmin (net_amount creditor) (- net_amount debtor))
    /\ (is2dp (net_amount creditor) -> is2dp (net_amount debtor) ->
        flow_amount (mkFlow "A" "B" (round2 40) "Alice" "Bob")
        == Qmin (net_amount creditor) (- net_amount debtor)).
Proof.
  apply (loopBody_greedy_step threeMembers (mkFlow "A" "B" (round2 40) "Alice" "Bob")
           [mkBalance "A" "Alice" (-60 + 40); mkBalance "C" "Charlie" 20]).
  vm_compute. reflexivity.
Defined.

(** C5 as stated fails on amounts that are not whole paise: for 10.004 and
    -10.004 the emitted amount is 10.00, not min(10.004, 10.004). *)
Lemma loopBody_amount_rounded :
  ~ (forall nz t rest,
        loopBody nz = Settle t rest ->
        flow_amount t
        == Qmin (amountAt nz (maxCreditorIndex nz)) (- amountAt nz (maxDebtorIndex nz))).
Proof.
  intro H.
  specialize (H fractionalPaise
                (mkFlow "B" "A" (round2 (10004 # 1000)) "Bob" "Alice") []).
  assert (E : flow_amount (mkFlow "B" "A" (round2 (10004 # 1000)) "Bob" "Alice")
              == Qmin (amountAt fractionalPaise (maxCreditorIndex fractionalPaise))
                      (- amountAt fractionalPaise (maxDebtorIndex fractionalPaise))).
  { apply H. vm_compute. reflexivity. }
  vm_compute in E. discriminate.
Qed.

(** ** Applying a plan, member by member *)

Lemma applyPlan_map plan balances :
  applyPlan plan balances = map (applyAll plan) balances.
Proof.
  unfold applyPlan, applyAll. revert balances.
  induction plan as [|t ts IH]; intro balances; simpl.
  - now rewrite map_id.
  - rewrite IH, map_map. reflexivity.
Qed.

Lemma applyAll_spec plan b :
  user_id (applyAll plan b) = user_id b
  /\ net_amount (applyAll plan b) == net_amount b + planEffect plan (user_id b).
Proof.
  unfold applyAll, planEffect. revert b.
  induction plan as [|t ts IH]; intro b; simpl.
  - split; [reflexivity | lra].
  - destruct (IH (applyFlow t b)) as [I A]. simpl in I, A. split; [assumption|].
    rewrite A. unfold flowEffect. lra.
Qed.

Lemma planEffect_cons t plan id :
  planEffect (t :: plan) id = flowEffect t id + planEffect plan id.
Proof. reflexivity. Qed.

Lemma planEffect_absent plan id :
  Forall (fun t => from t <> id /\ to t <> id) plan -> planEffect plan id == 0.
Proof.
  unfold planEffect. induction 1 as [|t ts [Hf Ht] _ IH]; simpl; [reflexivity|].
  rewrite IH. unfold flowEffect.
  apply String.eqb_neq in Hf. apply String.eqb_neq in Ht.
  rewrite Hf, Ht. lra.
Qed.

(** ** Totals *)

Lemma totalBalance_cons b l : totalBalance (b :: l) = net_amount b + totalBalance l.
Proof. reflexivity. Qed.

Lemma totalBalance_app l r : totalBalance (l ++ r) == totalBalance l + totalBalance r.
Proof.
  unfold totalBalance. rewrite map_app. apply sumQ_app.
Qed.

Lemma totalBalance_perm l l' :
  Permutation l l' -> totalBalance l == totalBalance l'.
Proof.
  induction 1; rewrite ?totalBalance_cons; lra.
Qed.

Lemma adjustAt_total nz i delta :
  (i < List.length nz)%nat ->
  totalBalance (adjustAt nz i delta) == totalBalance nz + delta.
Proof.
  revert i. induction nz as [|b r IH]; intros [|j] H; simpl in H; try lia.
  - simpl adjustAt. rewrite !totalBalance_cons. simpl. lra.
  - simpl adjustAt. rewrite !totalBalance_cons, IH by lia. lra.
Qed.

Lemma updateBalances_total nz ci di s :
  (ci < List.length nz)%nat -> (di < List.length nz)%nat ->
  totalBalance (updateBalances nz ci di s) == totalBalance nz.
Proof.
  intros C D. unfold updateBalances.
  rewrite adjustAt_total by (now rewrite adjustAt_length).
  rewrite adjustAt_total by assumption. lra.
Qed.

Lemma splice_perm {A} (l : list A) i x :
  nth_error l i = Some x -> Permutation l (x :: splice l i).
Proof.
  revert i. induction l as [|y r IH]; intros [|j] H; simpl in H; try discriminate.
  - inversion H; subst. apply Permutation_refl.
  - simpl. eapply perm_trans;
      [apply perm_skip, IH; eassumption | apply perm_swap].
Qed.

Lemma size_nil : size [] = 0.
Proof. reflexivity. Qed.

Lemma size_cons b l : size (b :: l) == size l + 1.
Proof.
  unfold size. simpl List.length. rewrite Nat2Z.inj_succ, <- Z.add_1_r, inject_Z_plus.
  reflexivity.
Qed.

Lemma size_nonneg l : 0 <= size l.
Proof.
  unfold size. change 0 with (inject_Z 0). rewrite <- Zle_Qle. lia.
Qed.

Lemma size_perm l l' : Permutation l l' -> size l = size l'.
Proof.
  intro P. unfold size. now rewrite (Permutation_length P).
Qed.

(** When every entry is at most [M], the entries other than [b] sum to at
    most [(length - 1) * M]; likewise from below. *)
Lemma others_le (M : Q) l b :
  (forall x, In x l -> net_amount x <= M) -> In b l ->
  totalBalance l - net_amount b <= (size l - 1) * M.
Proof.
  intros H I. destruct (in_split _ _ I) as (l1 & l2 & ->).
  assert (P : Permutation (l1 ++ b :: l2) (b :: l1 ++ l2))
    by (symmetry; apply Permutation_middle).
  rewrite (totalBalance_perm _ _ P), (size_perm _ _ P), totalBalance_cons, size_cons.
  assert (G : forall r, (forall x, In x r -> net_amount x <= M) ->
                        totalBalance r <= size r * M).
  { induction r as [|y r IH]; intro Hr.
    - rewrite size_nil. unfold totalBalance. simpl. lra.
    - rewrite totalBalance_cons, size_cons.
      assert (net_amount y <= M) by (apply Hr; now left).
      assert (totalBalance r <= size r * M) by (apply IH; intros; apply Hr; now right).
      lra. }
  assert (totalBalance (l1 ++ l2) <= size (l1 ++ l2) * M).
  { apply G. intros x Hx. apply H. apply in_app_or in Hx. apply in_or_app.
    destruct Hx; [left | right; right]; assumption. }
  lra.
Qed.

Lemma others_ge (M : Q) l b :
  (forall x, In x l -> - M <= net_amount x) -> In b l ->
  - ((size l - 1) * M) <= totalBalance l - net_amount b.
Proof.
  intros H I. destruct (in_split _ _ I) as (l1 & l2 & ->).
  assert (P : Permutation (l1 ++ b :: l2) (b :: l1 ++ l2))
    by (symmetry; apply Permutation_middle).
  rewrite (totalBalance_perm _ _ P), (size_perm _ _ P), totalBalance_cons, size_cons.
  assert (G : forall r, (forall x, In x r -> - M <= net_amount x) ->
                        - (size r * M) <= totalBalance r).
  { induction r as [|y r IH]; intro Hr.
    - rewrite size_nil. unfold totalBalance. simpl. lra.
    - rewrite totalBalance_cons, size_cons.
      assert (- M <= net_amount y) by (apply Hr; now left).
      assert (- (size r * M) <= totalBalance r) by (apply IH; intros; apply Hr; now right).
      lra. }
  assert (- (size (l1 ++ l2) * M) <= totalBalance (l1 ++ l2)).
  { apply G. intros x Hx. apply H. apply in_app_or in Hx. apply in_or_app.
    destruct Hx; [left | right; right]; assumption. }
  lra.
Qed.

(** ** What a pass removes *)

Lemma settledPart_small x y : In y (settledPart x) -> Qabs (net_amount y) <= tolerance.
Proof.
  unfold settledPart. destruct (Qle_bool _ _) eqn:E; simpl; [|contradiction].
  intros [<-|[]]. now apply Qle_bool_iff.
Qed.

(** With distinct ids the two [splice] calls remove exactly the creditor
    and the debtor, each when its new balance is within the tolerance. *)
Lemma removeSettled_perm updated ci di c' d' :
  distinctIds updated -> ci <> di ->
  nth_error updated ci = Some c' -> nth_error updated di = Some d' ->
  Permutation updated
              (settledPart c' ++ settledPart d'
               ++ removeSettled updated ci di (user_id d')).
Proof.
  intros N Ne C D. unfold removeSettled, settledPart.
  rewrite (amountAt_nth _ _ _ C), (amountAt_nth _ _ _ D).
  assert (Found : forall l, incl l updated -> In d' l ->
            exists k, findIndex (fun b => String.eqb (user_id b) (user_id d')) l = Some k
                      /\ nth_error l k = Some d').
  { intros l Sub I.
    destruct (findIndex (fun b => String.eqb (user_id b) (user_id d')) l) as [k|] eqn:Fi.
    - exists k. split; [reflexivity|].
      destruct (findIndex_Some _ _ _ Fi) as (y & Ny & Py & _).
      rewrite Ny. f_equal. apply String.eqb_eq in Py.
      apply (distinctIds_In updated); auto.
      apply Sub. eapply nth_error_In; eassumption.
    - pose proof (findIndex_None _ _ _ Fi I) as Bad. simpl in Bad.
      rewrite String.eqb_refl in Bad. discriminate. }
  pose proof (splice_perm _ _ _ C) as PC.
  destruct (Qle_bool (Qabs (net_amount c')) tolerance);
    destruct (Qle_bool (Qabs (net_amount d')) tolerance); simpl.
  - assert (I : In d' (splice updated ci)).
    { assert (I0 : In d' (c' :: splice updated ci)).
      { eapply Permutation_in; [exact PC | eapply nth_error_In; eassumption]. }
      destruct I0 as [E|I0]; [|assumption].
      exfalso. apply Ne. subst. eapply distinctIds_nth; eauto. }
    destruct (Found (splice updated ci)) as (k & Fk & Nk); auto.
    { intros x. apply splice_In. }
    assert (L : (0 <? List.length (splice updated ci))%nat = true).
    { apply Nat.ltb_lt. destruct (splice updated ci); [contradiction | simpl; lia]. }
    rewrite L, Fk.
    eapply perm_trans; [exact PC|]. apply perm_skip. now apply splice_perm.
  - exact PC.
  - destruct (Found updated) as (k & Fk & Nk).
    { apply incl_refl. } { eapply nth_error_In; eassumption. }
    assert (L : (0 <? List.length updated)%nat = true).
    { apply Nat.ltb_lt. apply nth_error_lt in C. lia. }
    rewrite L, Fk. now apply splice_perm.
  - apply Permutation_refl.
Qed.

Lemma map_NoDup_app_disjoint {A B} (f : A -> B) (l1 l2 : list A) x :
  NoDup (map f (l1 ++ l2)) -> In x l1 -> ~ In (f x) (map f l2).
Proof.
  rewrite map_app. induction l1 as [|y r IH]; simpl; intros N I; [contradiction|].
  inversion N; subst. destruct I as [->|I]; [|now apply IH].
  intro J. apply H1. apply in_or_app. now right.
Qed.

(** ** Balances in whole paise *)

Lemma adjustAt_wholePaise nz i delta :
  is2dp delta -> wholePaise nz -> wholePaise (adjustAt nz i delta).
Proof.
  intros Hd. revert i. induction nz as [|b r IH]; intros [|j] H x I; simpl in I;
    try contradiction.
  - destruct I as [<-|I]; [|apply H; now right].
    simpl. apply is2dp_plus; [apply H; now left | assumption].
  - destruct I as [<-|I]; [apply H; now left|].
    apply (IH j); [|assumption]. intros y Hy. apply H. now right.
Qed.

Lemma Qabs_cases (x : Q) : (0 <= x /\ Qabs x == x) \/ (x <= 0 /\ Qabs x == - x).
Proof.
  destruct (Qlt_le_dec x 0) as [L|L].
  - right. split; [lra | apply Qabs_neg; lra].
  - left. split; [assumption | now apply Qabs_pos].
Qed.

Lemma totalBalance_nil : totalBalance [] = 0.
Proof. reflexivity. Qed.

Lemma size_app l r : size (l ++ r) == size l + size r.
Proof.
  unfold size. rewrite length_app, Nat2Z.inj_add, inject_Z_plus. reflexivity.
Qed.

(** One pass on a list with distinct ids and whole-paise balances: what it
    does to the total, and to every member of the list. *)
Lemma pass_settles nz t rest :
  distinctIds nz -> wholePaise nz -> loopBody nz = Settle t rest ->
  wholePaise rest
  /\ In (from t) (map user_id nz) /\ In (to t) (map user_id nz)
  /\ residueBound rest <= Qabs (totalBalance nz) + (size nz - 2) * tolerance
  /\ forall b, In b nz ->
       exists b', user_id b' = user_id b
                  /\ net_amount b' == net_amount b + flowEffect t (user_id b)
                  /\ (In b' rest
                      \/ (~ In (user_id b) (map user_id rest)
                          /\ Qabs (net_amount b') <= tolerance)).
Proof.
  intros N W H. destruct (loopBody_Settle _ _ _ H) as (creditor & debtor & F).
  destruct F as [C D Hc Hd Ne Et Er].
  set (s := Qmin (net_amount creditor) (Qabs (net_amount debtor))) in *.
  set (ci := maxCreditorIndex nz) in *. set (di := maxDebtorIndex nz) in *.
  assert (S2 : is2dp s).
  { apply is2dp_min; [|apply is2dp_abs]; apply W; eapply nth_error_In; eassumption. }
  pose proof (updateBalances_creditor nz ci di s creditor Ne C) as UC.
  pose proof (updateBalances_debtor nz ci di s debtor Ne D) as UD.
  pose proof (updateBalances_total nz ci di s (nth_error_lt _ _ _ C) (nth_error_lt _ _ _ D))
    as UT.
  pose proof (updateBalances_length nz ci di s) as UL.
  assert (NU : distinctIds (updateBalances nz ci di s)).
  { unfold distinctIds. now rewrite updateBalances_ids. }
  assert (WU : wholePaise (updateBalances nz ci di s)).
  { unfold updateBalances. apply adjustAt_wholePaise; [assumption|].
    apply adjustAt_wholePaise; [now apply is2dp_opp | assumption]. }
  pose proof (removeSettled_perm _ ci di _ _ NU Ne UC UD) as P.
  simpl user_id in P. rewrite <- Er in P.
  set (c' := {| user_id := user_id creditor; user_name := user_name creditor;
                net_amount := net_amount creditor + - s |}) in *.
  set (d' := {| user_id := user_id debtor; user_name := user_name debtor;
                net_amount := net_amount debtor + s |}) in *.
  set (updated := updateBalances nz ci di s) in *.
  assert (IdNe : user_id creditor <> user_id debtor).
  { intro E. apply Ne. apply (distinctIds_nth nz ci di creditor debtor); assumption. }
  split; [|split; [|split; [|split]]].
  - intros x I. apply WU. rewrite Er in I. eapply removeSettled_incl; eassumption.
  - rewrite Et. simpl. apply in_map. eapply nth_error_In; eassumption.
  - rewrite Et. simpl. apply in_map. eapply nth_error_In; eassumption.
  - assert (ET : totalBalance nz
                 == totalBalance (settledPart c') + totalBalance (settledPart d')
                    + totalBalance rest).
    { rewrite <- UT, (totalBalance_perm _ _ P), !totalBalance_app. lra. }
    assert (ES : size nz == size (settledPart c') + size (settledPart d') + size rest).
    { assert (E0 : size nz = size updated) by (unfold size; now rewrite UL).
      rewrite E0, (size_perm _ _ P), !size_app. lra. }
    unfold residueBound.
    destruct (settlement_amount _ _ Hc Hd) as (_ & Zero). fold s in Zero.
    unfold settledPart in ET, ES. simpl net_amount in ET, ES.
    destruct (Qle_bool (Qabs (net_amount creditor + - s)) tolerance) eqn:Bc;
      [apply Qle_bool_iff in Bc | apply Qle_bool_gt in Bc];
      (destruct (Qle_bool (Qabs (net_amount debtor + s)) tolerance) eqn:Bd;
       [apply Qle_bool_iff in Bd | apply Qle_bool_gt in Bd]);
      subst c' d';
      rewrite ?size_cons, ?size_nil in ES;
      rewrite ?totalBalance_cons, ?totalBalance_nil in ET;
      simpl net_amount in ET;
      unfold tolerance in *;
      destruct (Qabs_cases (net_amount creditor + - s)) as [[? Ac]|[? Ac]];
      rewrite Ac in Bc;
      destruct (Qabs_cases (net_amount debtor + s)) as [[? Ad]|[? Ad]];
      rewrite Ad in Bd;
      destruct (Qabs_cases (totalBalance rest)) as [[? Ar]|[? Ar]];
      rewrite Ar;
      destruct (Qabs_cases (totalBalance nz)) as [[? An]|[? An]];
      rewrite An;
      destruct Zero as [[Z ?]|[Z ?]]; lra.
  - assert (G : forall x, In x updated ->
                          In x rest
                          \/ (~ In (user_id x) (map user_id rest)
                              /\ Qabs (net_amount x) <= tolerance)).
    { intros x I. apply (Permutation_in _ P) in I. rewrite app_assoc in I.
      apply in_app_or in I. destruct I as [I|I]; [right | now left]. split.
      - apply (map_NoDup_app_disjoint user_id (settledPart c' ++ settledPart d') rest x);
          [|assumption].
        rewrite <- app_assoc.
        eapply Permutation_NoDup; [apply Permutation_map; exact P | exact NU].
      - apply in_app_or in I. destruct I as [I|I]; eapply settledPart_small; eassumption. }
    intros b I. destruct (In_nth_error _ _ I) as (j & Hj).
    destruct (Nat.eq_dec j ci) as [->|Nc]; [|destruct (Nat.eq_dec j di) as [->|Nd]].
    + assert (b = creditor) by congruence. subst b.
      exists c'. split; [reflexivity|]. split.
      * rewrite Et. unfold flowEffect. simpl.
        rewrite String.eqb_refl.
        assert (X : String.eqb (user_id debtor) (user_id creditor) = false)
          by (apply String.eqb_neq; congruence).
        rewrite X, (round2_2dp _ S2). lra.
      * apply (G c'). eapply nth_error_In; eassumption.
    + assert (b = debtor) by congruence. subst b.
      exists d'. split; [reflexivity|]. split.
      * rewrite Et. unfold flowEffect. simpl.
        rewrite String.eqb_refl.
        assert (X : String.eqb (user_id creditor) (user_id debtor) = false)
          by (apply String.eqb_neq; congruence).
        rewrite X, (round2_2dp _ S2). lra.
      * apply (G d'). eapply nth_error_In; eassumption.
    + exists b. split; [reflexivity|]. split.
      * rewrite Et. unfold flowEffect. simpl.
        assert (X : String.eqb (user_id creditor) (user_id b) = false).
        { apply String.eqb_neq. intro E. apply Nc. symmetry.
          apply (distinctIds_nth nz ci j creditor b); assumption. }
        assert (Y : String.eqb (user_id debtor) (user_id b) = false).
        { apply String.eqb_neq. intro E. apply Nd. symmetry.
          apply (distinctIds_nth nz di j debtor b); assumption. }
        rewrite X, Y. lra.
      * apply (G b). apply (nth_error_In _ j).
        subst updated. now rewrite updateBalances_other.
Qed.

(** ** The bound on what a plan leaves unsettled *)

Lemma size_ge_2 l : (1 < List.length l)%nat -> 2 <= size l.
Proof.
  intro H. unfold size. change 2 with (inject_Z 2). rewrite <- Zle_Qle. lia.
Qed.

Lemma single_bound l b :
  (List.length l <= 1)%nat -> In b l -> Qabs (net_amount b) <= residueBound l.
Proof.
  intros L I. destruct l as [|x [|y r]]; simpl in L; try lia; [contradiction|].
  destruct I as [->|[]]. unfold residueBound.
  rewrite size_cons, size_nil, totalBalance_cons, totalBalance_nil.
  unfold tolerance.
  destruct (Qabs_cases (net_amount b)) as [[? A]|[? A]]; rewrite A;
    destruct (Qabs_cases (net_amount b + 0)) as [[? B]|[? B]]; rewrite B; lra.
Qed.

(** When the defensive [break] fires, all balances are on one side of the
    tolerance and each is bounded through the total. *)
Lemma break_bound nz b :
  (1 < List.length nz)%nat -> loopBody nz = Break -> In b nz ->
  Qabs (net_amount b) <= residueBound nz.
Proof.
  intros L H I.
  assert (NE : nz <> []) by (intro E; subst; simpl in L; lia).
  destruct (maxCreditorIndex_spec nz NE) as (Rc & Cmax & _).
  destruct (maxDebtorIndex_spec nz NE) as (Rd & Dmin & _).
  pose proof (size_ge_2 nz L) as S2.
  unfold loopBody in H.
  destruct (nth_error nz (maxCreditorIndex nz)) as [creditor|] eqn:C;
    [|apply nth_error_None in C; lia].
  destruct (nth_error nz (maxDebtorIndex nz)) as [debtor|] eqn:D;
    [|apply nth_error_None in D; lia].
  rewrite (amountAt_nth _ _ _ C) in Cmax. rewrite (amountAt_nth _ _ _ D) in Dmin.
  destruct (Qle_bool (net_amount creditor) tolerance) eqn:Lc.
  - apply Qle_bool_iff in Lc.
    assert (U : forall x, In x nz -> net_amount x <= tolerance).
    { intros x Ix. destruct (In_nth_error _ _ Ix) as (j & Hj).
      rewrite (nth_error_amountAt _ _ _ Hj).
      eapply Qle_trans; [apply Cmax; eapply nth_error_lt; eassumption | assumption]. }
    pose proof (others_le tolerance nz b U I) as O. pose proof (U b I) as Ub.
    unfold residueBound. unfold tolerance in *.
    destruct (Qabs_cases (net_amount b)) as [[? A]|[? A]]; rewrite A;
      destruct (Qabs_cases (totalBalance nz)) as [[? B]|[? B]]; rewrite B; lra.
  - destruct (Qle_bool (- tolerance) (net_amount debtor)) eqn:Ld; [|discriminate].
    apply Qle_bool_iff in Ld.
    assert (U : forall x, In x nz -> - tolerance <= net_amount x).
    { intros x Ix. destruct (In_nth_error _ _ Ix) as (j & Hj).
      rewrite (nth_error_amountAt _ _ _ Hj).
      eapply Qle_trans; [eassumption | apply Dmin; eapply nth_error_lt; eassumption]. }
    pose proof (others_ge tolerance nz b U I) as O. pose proof (U b I) as Ub.
    unfold residueBound. unfold tolerance in *.
    destruct (Qabs_cases (net_amount b)) as [[? A]|[? A]]; rewrite A;
      destruct (Qabs_cases (totalBalance nz)) as [[? B]|[? B]]; rewrite B; lra.
Qed.

(** The loop, started on a list with distinct ids and whole-paise balances:
    its transactions name members of the list only, and applying them leaves
    every member within [residueBound]. *)
Lemma loop_settles fuel nz out q :
  distinctIds nz -> wholePaise nz ->
  settleLoop fuel nz [] 0%nat = Some (out, q) ->
  Forall (mentionsOnly (map user_id nz)) out
  /\ forall b, In b nz ->
               Qabs (net_amount b + planEffect out (user_id b)) <= residueBound nz.
Proof.
  revert nz out q.
  assert (Idle : forall nz b,
             (List.length nz <= 1)%nat \/ ((1 < List.length nz)%nat /\ loopBody nz = Break) ->
             In b nz ->
             Qabs (net_amount b + planEffect [] (user_id b)) <= residueBound nz).
  { intros nz b Hc I. change (planEffect [] (user_id b)) with 0.
    setoid_replace (net_amount b + 0) with (net_amount b) by ring.
    destruct Hc as [L|[L B]]; [now apply single_bound | now apply break_bound]. }
  induction fuel as [|fuel IH]; intros nz out q N W H; simpl in H.
  - destruct (List.length nz <=? 1)%nat eqn:L; [|discriminate].
    apply Nat.leb_le in L. inversion H; subst. split; [constructor|].
    intros b I. apply Idle; auto.
  - destruct (List.length nz <=? 1)%nat eqn:L.
    { apply Nat.leb_le in L. inversion H; subst. split; [constructor|].
      intros b I. apply Idle; auto. }
    apply Nat.leb_gt in L.
    destruct (loopBody nz) as [|t rest] eqn:B.
    { inversion H; subst. split; [constructor|].
      intros b I. apply Idle; auto. }
    rewrite settleLoop_acc in H.
    destruct (settleLoop fuel rest [] 0%nat) as [[out' q']|] eqn:E; [|discriminate].
    inversion H; subst; clear H. change ([] ++ t :: out') with (t :: out').
    destruct (pass_settles _ _ _ N W B) as (Wr & Mf & Mt & Bound & Each).
    pose proof (loopBody_distinct _ _ _ N B) as Nr.
    pose proof (loopBody_ids _ _ _ B) as Sub.
    destruct (IH rest out' q' Nr Wr E) as (Mo & Rest).
    pose proof (size_ge_2 nz L) as S2.
    split.
    + constructor; [split; assumption|].
      eapply Forall_impl; [|exact Mo]. intros x [Xf Xt]. split; apply Sub; assumption.
    + intros b I. destruct (Each b I) as (b' & Ib & Ab & [Ir | [Gone Small]]).
      * specialize (Rest b' Ir). rewrite Ib, Ab in Rest.
        rewrite planEffect_cons.
        setoid_replace (net_amount b
                        + (flowEffect t (user_id b) + planEffect out' (user_id b)))
          with (net_amount b + flowEffect t (user_id b)
                + planEffect out' (user_id b)) by ring.
        eapply Qle_trans; [exact Rest|].
        eapply Qle_trans; [exact Bound|].
        unfold residueBound, tolerance. lra.
      * assert (Z : planEffect out' (user_id b) == 0).
        { apply planEffect_absent. eapply Forall_impl; [|exact Mo].
          intros x [Xf Xt]. split; intro Eq; apply Gone; congruence. }
        rewrite planEffect_cons, Z.
        setoid_replace (net_amount b + (flowEffect t (user_id b) + 0))
          with (net_amount b') by (rewrite Ab; ring).
        eapply Qle_trans; [exact Small|].
        unfold residueBound, tolerance.
        pose proof (Qabs_nonneg (totalBalance nz)). lra.
Qed.

(** The balances that the filter drops move the total by at most one
    tolerance each. *)
Lemma nonZero_cons x r :
  nonZero (x :: r)
  = if Qgtb (Qabs (net_amount x)) tolerance then x :: nonZero r else nonZero r.
Proof. reflexivity. Qed.

Lemma nonZero_total l :
  Qabs (totalBalance l - totalBalance (nonZero l))
  <= (size l - size (nonZero l)) * tolerance.
Proof.
  induction l as [|x r IH].
  - change (nonZero []) with (@nil SimplifiedBalance).
    rewrite totalBalance_nil, size_nil. simpl. lra.
  - rewrite nonZero_cons.
    set (T := totalBalance r) in *. set (T' := totalBalance (nonZero r)) in *.
    set (S := size r) in *. set (S' := size (nonZero r)) in *.
    destruct (Qgtb (Qabs (net_amount x)) tolerance) eqn:G.
    + rewrite !totalBalance_cons, !size_cons. fold T T' S S'.
      setoid_replace (net_amount x + T - (net_amount x + T')) with (T - T') by ring.
      eapply Qle_trans; [exact IH|]. unfold tolerance. lra.
    + apply Qltb_ge in G. rewrite totalBalance_cons, size_cons. fold T T' S S'.
      unfold tolerance in *.
      destruct (Qabs_cases (net_amount x)) as [[? A]|[? A]]; rewrite A in G;
        destruct (Qabs_cases (T - T')) as [[? B]|[? B]]; rewrite B in IH;
        destruct (Qabs_cases (net_amount x + T - T')) as [[? C]|[? C]]; rewrite C; lra.
Qed.

Lemma nonZero_residueBound l : residueBound (nonZero l) <= residueBound l.
Proof.
  pose proof (nonZero_total l) as H. unfold residueBound.
  set (T := totalBalance l) in *. set (T' := totalBalance (nonZero l)) in *.
  unfold tolerance in *.
  destruct (Qabs_cases (T - T')) as [[? A]|[? A]]; rewrite A in H;
    destruct (Qabs_cases T) as [[? B]|[? B]]; rewrite B;
    destruct (Qabs_cases T') as [[? C]|[? C]]; rewrite C; lra.
Qed.




(** ** JavaScript maps *)

Section JsMapFacts.
Context {V : Type}.
Implicit Types (m : JsMap V) (k : string) (v : V).

Lemma map_get_set m k v k' :
  map_get (map_set m k v) k' = if String.eqb k k' then Some v else map_get m k'.
Proof.
  induction m as [|[k0 v0] r IH]; simpl.
  - reflexivity.
  - destruct (String.eqb k0 k) eqn:E; simpl.
    + apply String.eqb_eq in E. subst k0. now destruct (String.eqb k k').
    + rewrite IH. destruct (String.eqb k0 k') eqn:E'; [|reflexivity].
      apply String.eqb_eq in E'. subst k'. now rewrite String.eqb_sym, E.
Qed.

Lemma map_has_set m k v k' :
  map_has (map_set m k v) k' = String.eqb k k' || map_has m k'.
Proof.
  unfold map_has. rewrite map_get_set. now destruct (String.eqb k k').
Qed.

Lemma keys_set m k v :
  keys (map_set m k v) = if map_has m k then keys m else keys m ++ [k].
Proof.
  unfold map_has, keys. induction m as [|[k0 v0] r IH]; simpl; [reflexivity|].
  destruct (String.eqb k0 k) eqn:E; simpl; [reflexivity|].
  rewrite IH. now destruct (map_get r k).
Qed.

Lemma map_get_keys m k : In k (keys m) <-> map_has m k = true.
Proof.
  unfold map_has, keys. induction m as [|[k0 v0] r IH]; simpl.
  - split; [contradiction | discriminate].
  - destruct (String.eqb k0 k) eqn:E.
    + apply String.eqb_eq in E. tauto.
    + apply String.eqb_neq in E. rewrite <- IH. tauto.
Qed.

Lemma keys_set_NoDup m k v : NoDup (keys m) -> NoDup (keys (map_set m k v)).
Proof.
  intro N. rewrite keys_set. destruct (map_has m k) eqn:H; [assumption|].
  apply NoDup_app; [assumption | repeat constructor; intros [] |].
  intros x I [<-|[]]. apply map_get_keys in I. congruence.
Qed.

Lemma keys_set_In m k v k' :
  In k' (keys (map_set m k v)) <-> k' = k \/ In k' (keys m).
Proof.
  rewrite !map_get_keys, map_has_set, orb_true_iff, String.eqb_eq. intuition.
Qed.

Lemma map_set_In m k v e :
  In e (map_set m k v) -> In e m \/ snd e = v.
Proof.
  induction m as [|[k0 v0] r IH]; simpl.
  - intros [<-|[]]. now right.
  - destruct (String.eqb k0 k); simpl; intros [<-|I]; auto.
    destruct (IH I); auto.
Qed.

Lemma map_get_In m k v : map_get m k = Some v -> In (k, v) m.
Proof.
  induction m as [|[k0 v0] r IH]; simpl; [discriminate|].
  destruct (String.eqb k0 k) eqn:E.
  - apply String.eqb_eq in E. intro H. inversion H; subst. now left.
  - intro H. right. now apply IH.
Qed.

(** What [set] does to a sum over the entries. *)
Variable weight : string -> V -> Q.

Lemma wsum_set m k v :
  wsum weight (map_set m k v)
  == wsum weight m
     - match map_get m k with Some old => weight k old | None => 0 end
     + weight k v.
Proof.
  unfold wsum. induction m as [|[k0 v0] r IH]; simpl.
  - lra.
  - destruct (String.eqb k0 k) eqn:E; simpl.
    + apply String.eqb_eq in E. subst k0. lra.
    + rewrite IH. lra.
Qed.
End JsMapFacts.

(** ** simplifyBalances: signed accumulation *)

Lemma ensureUser_has m k n : map_has (ensureUser m k n) k = true.
Proof.
  unfold ensureUser. destruct (map_has m k) eqn:H; [assumption|].
  rewrite map_has_set, String.eqb_refl. reflexivity.
Qed.

Lemma ensureUser_keeps m k n k' :
  map_has m k' = true -> map_has (ensureUser m k n) k' = true.
Proof.
  intro H. unfold ensureUser. destruct (map_has m k); [assumption|].
  rewrite map_has_set, H. apply orb_true_r.
Qed.

Lemma ensureUser_amount m k n id : amountOf id (ensureUser m k n) = amountOf id m.
Proof.
  unfold ensureUser, amountOf. destruct (map_has m k) eqn:H; [reflexivity|].
  rewrite map_get_set. destruct (String.eqb k id) eqn:E; [|reflexivity].
  apply String.eqb_eq in E. subst id. unfold map_has in H.
  destruct (map_get m k); [discriminate | reflexivity].
Qed.

Lemma ensureUser_total m k n : mapTotal (ensureUser m k n) == mapTotal m.
Proof.
  unfold ensureUser, mapTotal. destruct (map_has m k) eqn:H; [reflexivity|].
  rewrite wsum_set. unfold map_has in H.
  destruct (map_get m k); [discriminate|]. simpl. lra.
Qed.

Lemma addAmount_has m k delta k' :
  map_has (addAmount m k delta) k' = map_has m k'.
Proof.
  unfold addAmount. destruct (map_get m k) as [d|] eqn:G; [|reflexivity].
  rewrite map_has_set. destruct (String.eqb k k') eqn:E; [|reflexivity].
  apply String.eqb_eq in E. subst k'. unfold map_has. now rewrite G.
Qed.

Lemma addAmount_amount m k delta id :
  map_has m k = true ->
  amountOf id (addAmount m k delta)
  == amountOf id m + (if String.eqb k id then delta else 0).
Proof.
  unfold map_has, addAmount, amountOf. intro H.
  destruct (map_get m k) as [d|] eqn:G; [|discriminate].
  rewrite map_get_set. destruct (String.eqb k id) eqn:E.
  - apply String.eqb_eq in E. subst id. rewrite G. simpl. reflexivity.
  - lra.
Qed.

Lemma addAmount_total m k delta :
  map_has m k = true -> mapTotal (addAmount m k delta) == mapTotal m + delta.
Proof.
  unfold map_has, addAmount, mapTotal. intro H.
  destruct (map_get m k) as [d|] eqn:G; [|discriminate].
  rewrite wsum_set, G. simpl. lra.
Qed.

Lemma aggregateRow_amount m r id :
  amountOf id (aggregateRow m r) == amountOf id m + rowEffect r id.
Proof.
  unfold aggregateRow, rowEffect.
  rewrite addAmount_amount
    by (rewrite addAmount_has; apply ensureUser_has).
  rewrite addAmount_amount
    by (apply ensureUser_keeps, ensureUser_has).
  rewrite !ensureUser_amount.
  destruct (String.eqb (to_user r) id); destruct (String.eqb (from_user r) id); lra.
Qed.

Lemma aggregateRow_total m r : mapTotal (aggregateRow m r) == mapTotal m.
Proof.
  unfold aggregateRow.
  rewrite addAmount_total
    by (rewrite addAmount_has; apply ensureUser_has).
  rewrite addAmount_total
    by (apply ensureUser_keeps, ensureUser_has).
  rewrite !ensureUser_total. lra.
Qed.

Lemma fold_aggregateRow_amount rows m id :
  amountOf id (fold_left aggregateRow rows m) == amountOf id m + signedTotal rows id.
Proof.
  unfold signedTotal. revert m. induction rows as [|r rows IH]; intro m; simpl.
  - lra.
  - rewrite IH, aggregateRow_amount. lra.
Qed.

(** [simplifyBalances] accumulates signed amounts: the entry of a member is
    the sum of what the rows say it is owed minus what they say it owes. *)
Lemma aggregateRows_amount rows id :
  amountOf id (aggregateRows rows) == signedTotal rows id.
Proof.
  unfold aggregateRows. rewrite fold_aggregateRow_amount.
  unfold amountOf. simpl. lra.
Qed.

Lemma aggregateRows_total rows : mapTotal (aggregateRows rows) == 0.
Proof.
  unfold aggregateRows.
  assert (G : forall m, mapTotal (fold_left aggregateRow rows m) == mapTotal m).
  { induction rows as [|r rows IH]; intro m; simpl; [reflexivity|].
    now rewrite IH, aggregateRow_total. }
  rewrite G. reflexivity.
Qed.

(** ** simplifyBalances: members and paise *)

Lemma ensureUser_paise m k n : mapPaise m -> mapPaise (ensureUser m k n).
Proof.
  intros H e I. unfold ensureUser in I. destruct (map_has m k); [now apply H|].
  apply map_set_In in I. destruct I as [I| ->]; [now apply H|].
  simpl. apply is2dp_0.
Qed.

Lemma addAmount_paise m k delta :
  is2dp delta -> mapPaise m -> mapPaise (addAmount m k delta).
Proof.
  intros Hd H e I. unfold addAmount in I.
  destruct (map_get m k) as [d|] eqn:G; [|now apply H].
  apply map_set_In in I. destruct I as [I| ->]; [now apply H|].
  simpl. apply is2dp_plus; [|assumption].
  apply (H (k, d)). now apply map_get_In.
Qed.

Lemma aggregateRows_paise rows :
  (forall r, In r rows -> is2dp (owes r)) -> mapPaise (aggregateRows rows).
Proof.
  intro H. unfold aggregateRows.
  assert (G : forall m, mapPaise m -> mapPaise (fold_left aggregateRow rows m)).
  { induction rows as [|r rows IH]; intros m Hm; simpl; [assumption|].
    apply IH.
    - intros x Ix. apply H. now right.
    - unfold aggregateRow.
      assert (is2dp (owes r)) by (apply H; now left).
      apply addAmount_paise; [assumption|].
      apply addAmount_paise; [now apply is2dp_opp|].
      now apply ensureUser_paise, ensureUser_paise. }
  apply G. intros e [].
Qed.

Lemma simplified_total m :
  mapPaise m -> totalBalance (map simplifiedEntry m) == mapTotal m.
Proof.
  unfold mapTotal, wsum. induction m as [|e r IH]; intro H.
  - reflexivity.
  - simpl map. rewrite totalBalance_cons. simpl sumQ.
    rewrite IH by (intros x Ix; apply H; now right).
    simpl net_amount. rewrite round2_2dp by (apply H; now left). reflexivity.
Qed.

Lemma simplified_ids m : map user_id (map simplifiedEntry m) = keys m.
Proof.
  unfold keys. rewrite map_map. reflexivity.
Qed.

Lemma ensureUser_keys m k n k' :
  In k' (keys (ensureUser m k n)) <-> k' = k \/ In k' (keys m).
Proof.
  unfold ensureUser. destruct (map_has m k) eqn:H.
  - split; [tauto|]. intros [->|I]; [|assumption]. now apply map_get_keys.
  - apply keys_set_In.
Qed.

Lemma ensureUser_NoDup m k n : NoDup (keys m) -> NoDup (keys (ensureUser m k n)).
Proof.
  intro N. unfold ensureUser. destruct (map_has m k); [assumption|].
  now apply keys_set_NoDup.
Qed.

Lemma addAmount_keys m k delta : keys (addAmount m k delta) = keys m.
Proof.
  unfold addAmount. destruct (map_get m k) as [d|] eqn:G; [|reflexivity].
  rewrite keys_set. unfold map_has. now rewrite G.
Qed.

Lemma aggregateRow_keys m r k :
  In k (keys (aggregateRow m r)) <-> In k (keys m) \/ k = from_user r \/ k = to_user r.
Proof.
  unfold aggregateRow. rewrite !addAmount_keys, !ensureUser_keys. tauto.
Qed.

Lemma aggregateRows_keys rows k :
  In k (keys (aggregateRows rows))
  <-> exists r, In r rows /\ (k = from_user r \/ k = to_user r).
Proof.
  unfold aggregateRows.
  assert (G : forall m, In k (keys (fold_left aggregateRow rows m))
                        <-> In k (keys m)
                            \/ exists r, In r rows /\ (k = from_user r \/ k = to_user r)).
  { induction rows as [|r rows IH]; intro m; simpl.
    - split; [tauto|]. intros [I|(r & [] & _)]. assumption.
    - rewrite IH, aggregateRow_keys. split.
      + intros [[I|E]|(x & Ix & Ex)]; eauto 6.
      + intros [I|(x & [<-|Ix] & Ex)]; eauto 6. }
  rewrite G. simpl. split; [intros [[]|E]; assumption | now right].
Qed.

Lemma aggregateRows_NoDup rows : NoDup (keys (aggregateRows rows)).
Proof.
  unfold aggregateRows.
  assert (G : forall m, NoDup (keys m) -> NoDup (keys (fold_left aggregateRow rows m))).
  { induction rows as [|r rows IH]; intros m N; simpl; [assumption|].
    apply IH. unfold aggregateRow. rewrite !addAmount_keys.
    now apply ensureUser_NoDup, ensureUser_NoDup. }
  apply G. constructor.
Qed.

Lemma balanceRows_paise groupId names m r :
  In r (balanceRows groupId names m) -> is2dp (owes r).
Proof.
  unfold balanceRows. intro I. apply in_flat_map in I.
  destruct I as ([key amt] & _ & I). unfold balanceRow in I.
  destruct (Qgtb amt tolerance); [|contradiction].
  destruct (keyUsers key) as [a b]. destruct I as [<-|[]].
  simpl. apply round2_is2dp.
Qed.


(** C8, as far as it holds.  Every net balance that [simplifyBalances]
    returns is rounded to two decimals.  [simplifyBalances] drops nobody:
    its result names, once each, exactly the members that the rows name.
    Balances within the tolerance are dropped later, by the filter at the
    head of [calculateMinCashFlow], and by [calculateSimplifiedBalances] on
    the group page. *)
Theorem simplifyBalances_rounds_keeps_all (userBalances : list UserBalance) :
  (forall b, In b (simplifyBalances userBalances) ->
             is2dp (net_amount b) /\ round2 (net_amount b) == net_amount b)
  /\ (forall id, In id (map user_id (simplifyBalances userBalances))
                 <-> exists r, In r userBalances /\ (id = from_user r \/ id = to_user r))
  /\ NoDup (map user_id (simplifyBalances userBalances))
  /\ (forall b, In b (nonZero (simplifyBalances userBalances)) ->
                tolerance < Qabs (net_amount b))
  /\ (forall members currentUserId b,
         In b (calculateSimplifiedBalances userBalances members currentUserId) ->
         tolerance < Qabs (net_amount b)).
Proof.
  unfold simplifyBalances. repeat split.
  - apply in_map_iff in H. destruct H as (e & <- & _). apply round2_is2dp.
  - apply in_map_iff in H. destruct H as (e & <- & _).
    apply round2_2dp, round2_is2dp.
  - rewrite simplified_ids. apply aggregateRows_keys.
  - rewrite simplified_ids. apply aggregateRows_keys.
  - rewrite simplified_ids. apply aggregateRows_NoDup.
  - intros b I. unfold nonZero in I. apply filter_In in I.
    destruct I as [_ G]. now apply Qltb_lt in G.
  - intros members currentUserId b I. unfold calculateSimplifiedBalances in I.
    apply filter_In in I. destruct I as [_ G]. now apply Qltb_lt in G.
Qed.

(** C8 as stated fails: B owes A 10 and is owed 10 by C, and appears in the
    result of [simplifyBalances] with balance 0. *)
Lemma simplifyBalances_keeps_zero :
  ~ (forall b, In b (simplifyBalances (getGroupBalances "g" chainExpenses [])) ->
               tolerance <= Qabs (round2 (net_amount b))).
Proof.
  intro H.
  specialize (H (nth 0 (simplifyBalances (getGroupBalances "g" chainExpenses []))
                     (mkBalance "" "" 1))).
  assert (I : In (nth 0 (simplifyBalances (getGroupBalances "g" chainExpenses []))
                      (mkBalance "" "" 1))
                 (simplifyBalances (getGroupBalances "g" chainExpenses []))).
  { apply nth_In. vm_compute. repeat constructor. }
  apply H in I. apply Qle_bool_iff in I. vm_compute in I. discriminate.
Qed.

(** ** The builder and the obligations of the specification *)

Lemma netExpense_obligations m e :
  netExpense m e = fold_left absorbObligation (expenseObligations e) m.
Proof.
  unfold netExpense, expenseObligations.
  destruct (splits e) as [ss|]; [|reflexivity].
  revert m. induction ss as [|s ss IH]; intro m; simpl; [reflexivity|].
  rewrite IH. unfold netSplit, notPayer.
  destruct (String.eqb (split_user_id s) (paid_by e)); reflexivity.
Qed.

Lemma buildBalanceMap_obligations expenses :
  buildBalanceMap expenses
  = fold_left absorbObligation (pairwiseObligations expenses) [].
Proof.
  unfold buildBalanceMap, pairwiseObligations. generalize (@nil (string * Q)).
  induction expenses as [|e es IH]; intro m; simpl; [reflexivity|].
  now rewrite fold_left_app, IH, netExpense_obligations.
Qed.

Lemma pairwiseObligations_In expenses o :
  In o (pairwiseObligations expenses)
  <-> exists e ss s,
        In e expenses /\ splits e = Some ss /\ In s ss
        /\ split_user_id s <> paid_by e
        /\ o = mkObligation (split_user_id s) (paid_by e) (share_amount s).
Proof.
  unfold pairwiseObligations. rewrite in_flat_map. split.
  - intros (e & Ie & Io). unfold expenseObligations in Io.
    destruct (splits e) as [ss|] eqn:Es; [|contradiction].
    apply in_map_iff in Io. destruct Io as (s & <- & Is).
    apply filter_In in Is. destruct Is as [Is Np].
    exists e, ss, s. repeat split; auto.
    unfold notPayer in Np. apply negb_true_iff in Np. now apply String.eqb_neq.
  - intros (e & ss & s & Ie & Es & Is & Np & ->).
    exists e. split; [assumption|]. unfold expenseObligations. rewrite Es.
    apply in_map_iff. exists s. split; [reflexivity|].
    apply filter_In. split; [assumption|].
    unfold notPayer. apply negb_true_iff. now apply String.eqb_neq.
Qed.

Lemma withoutSelfSplits_obligations e :
  expenseObligations (withoutSelfSplits e) = expenseObligations e.
Proof.
  unfold expenseObligations, withoutSelfSplits. simpl.
  destruct (splits e) as [ss|]; [|reflexivity]. simpl. f_equal.
  unfold notPayer. simpl.
  induction ss as [|s ss IH]; simpl; [reflexivity|].
  destruct (negb (String.eqb (split_user_id s) (paid_by e))) eqn:E; simpl.
  - now rewrite E, IH.
  - exact IH.
Qed.





(** ** Netting and direct accumulation *)

Lemma splitColon_noColon s : noColon s = true -> splitColon s = (s, []).
Proof.
  induction s as [|c r IH]; simpl; [reflexivity|].
  intro H. apply andb_true_iff in H. destruct H as [Hc Hr].
  rewrite (IH Hr). apply negb_true_iff in Hc. now rewrite Hc.
Qed.

Lemma splitColon_pairKey a b :
  noColon a = true ->
  splitColon (pairKey a b) = (a, fst (splitColon b) :: snd (splitColon b)).
Proof.
  unfold pairKey. induction a as [|c r IH]; simpl.
  - intros _. destruct (splitColon b) as [h t]. reflexivity.
  - intro H. apply andb_true_iff in H. destruct H as [Hc Hr].
    rewrite (IH Hr). apply negb_true_iff in Hc. now rewrite Hc.
Qed.

(** A pair key of two ids without a colon splits back into the two ids. *)
Lemma keyUsers_pairKey a b :
  noColon a = true -> noColon b = true -> keyUsers (pairKey a b) = (a, b).
Proof.
  intros Ha Hb. unfold keyUsers.
  now rewrite (splitColon_pairKey a b Ha), (splitColon_noColon b Hb).
Qed.

Lemma balanceOf_simplified id m :
  balanceOf id (map simplifiedEntry m) == round2 (amountOf id m).
Proof.
  unfold balanceOf, amountOf. induction m as [|[k d] r IH]; simpl.
  - reflexivity.
  - destruct (String.eqb k id); [reflexivity | exact IH].
Qed.

Lemma balanceOf_simplifyBalances id rows :
  balanceOf id (simplifyBalances rows) == round2 (signedTotal rows id).
Proof.
  unfold simplifyBalances. now rewrite balanceOf_simplified, aggregateRows_amount.
Qed.

Lemma signedTotal_unfiltered groupId m id :
  signedTotal (unfilteredRows groupId m) id = wsum (keyEffect id) m.
Proof.
  unfold signedTotal, unfilteredRows, wsum. rewrite map_map. reflexivity.
Qed.

Lemma keyEffect_get id m k :
  match map_get m k with Some old => keyEffect id k old | None => 0 end
  == keyEffect id k (getOrZero m k).
Proof.
  unfold getOrZero, keyEffect. destruct (map_get m k); [reflexivity|].
  destruct (String.eqb _ id); destruct (String.eqb _ id); lra.
Qed.

(** One absorption moves the signed total of every member by what the
    obligation says, whichever branch it takes. *)
Lemma absorb_effect id m d c a :
  noColon d = true -> noColon c = true ->
  wsum (keyEffect id) (absorb m d c a)
  == wsum (keyEffect id) m
     + ((if String.eqb c id then a else 0) - (if String.eqb d id then a else 0)).
Proof.
  intros Hd Hc. unfold absorb.
  pose proof (keyEffect_get id m (pairKey d c)) as Gk.
  pose proof (keyEffect_get id m (pairKey c d)) as Gr.
  set (cur := getOrZero m (pairKey d c)) in *.
  set (rev := getOrZero m (pairKey c d)) in *.
  destruct (Qgtb rev 0).
  - destruct (Qle_bool a rev).
    + rewrite wsum_set, Gr. unfold keyEffect.
      rewrite (keyUsers_pairKey c d Hc Hd). simpl.
      destruct (String.eqb c id); destruct (String.eqb d id); lra.
    + rewrite wsum_set, wsum_set, Gr.
      pose proof (keyEffect_get id (map_set m (pairKey c d) 0) (pairKey d c)) as G2.
      rewrite G2. unfold getOrZero at 1. rewrite map_get_set.
      destruct (String.eqb (pairKey c d) (pairKey d c)) eqn:E.
      * apply String.eqb_eq in E.
        assert (X : (c, d) = (d, c)).
        { rewrite <- (keyUsers_pairKey c d Hc Hd), E. now apply keyUsers_pairKey. }
        inversion X; subst. unfold keyEffect.
        rewrite (keyUsers_pairKey d d Hd Hd). simpl.
        destruct (String.eqb d id); lra.
      * fold (getOrZero m (pairKey d c)). fold cur. unfold keyEffect.
        rewrite (keyUsers_pairKey c d Hc Hd), (keyUsers_pairKey d c Hd Hc). simpl.
        destruct (String.eqb c id); destruct (String.eqb d id); lra.
  - rewrite wsum_set, Gk. unfold keyEffect.
    rewrite (keyUsers_pairKey d c Hd Hc). simpl.
    destruct (String.eqb c id); destruct (String.eqb d id); lra.
Qed.

Lemma fold_absorb_effect groupId id obligations m :
  colonFree obligations ->
  wsum (keyEffect id) (fold_left absorbObligation obligations m)
  == wsum (keyEffect id) m + signedTotal (obligationRows groupId obligations) id.
Proof.
  unfold signedTotal. revert m.
  induction obligations as [|o os IH]; intros m H; simpl.
  - lra.
  - rewrite IH by (intros x Ix; apply H; now right).
    destruct (H o (or_introl eq_refl)) as [Hd Hc].
    unfold absorbObligation. rewrite (absorb_effect id m _ _ _ Hd Hc).
    unfold rowEffect. simpl. lra.
Qed.




(** * Further properties of the builder *)

Lemma pairwiseObligations_proper expenses :
  colonFreeExpenses expenses ->
  forall o, In o (pairwiseObligations expenses) -> properObligation o.
Proof.
  intros H o I. apply pairwiseObligations_In in I.
  destruct I as (e & ss & s & Ie & Es & Is & Ne & ->).
  destruct (H e Ie) as [Hp Hs]. unfold properObligation. simpl.
  repeat split; eauto.
Qed.

Lemma pairKey_inj a b c d :
  noColon a = true -> noColon b = true -> noColon c = true -> noColon d = true ->
  pairKey a b = pairKey c d -> a = c /\ b = d.
Proof.
  intros Ha Hb Hc Hd E.
  assert (X : (a, b) = (c, d)).
  { rewrite <- (keyUsers_pairKey a b Ha Hb), E. now apply keyUsers_pairKey. }
  inversion X. auto.
Qed.

Lemma getOrZero_set m k v k' :
  getOrZero (map_set m k v) k' = if String.eqb k k' then v else getOrZero m k'.
Proof.
  unfold getOrZero. rewrite map_get_set. now destruct (String.eqb k k').
Qed.

Lemma absorb_keys m d c a k :
  In k (keys (absorb m d c a)) -> In k (keys m) \/ k = pairKey d c \/ k = pairKey c d.
Proof.
  unfold absorb. destruct (Qgtb _ _); [destruct (Qle_bool _ _)|];
    rewrite ?keys_set_In; tauto.
Qed.

Lemma absorb_keys_NoDup m d c a : NoDup (keys m) -> NoDup (keys (absorb m d c a)).
Proof.
  intro N. unfold absorb. destruct (Qgtb _ _); [destruct (Qle_bool _ _)|];
    repeat apply keys_set_NoDup; assumption.
Qed.

Lemma absorb_pairKeys m o :
  properObligation o -> pairKeys m -> pairKeys (absorbObligation m o).
Proof.
  intros (Hd & Hc & Ne) H k I. unfold absorbObligation in I.
  apply absorb_keys in I. destruct I as [I|[->| ->]].
  - now apply H.
  - exists (debtor o), (creditor o). auto.
  - exists (creditor o), (debtor o). auto.
Qed.

Lemma absorb_oneWay m o :
  properObligation o -> oneWay m -> oneWay (absorbObligation m o).
Proof.
  intros (Hd & Hc & Ne) H a b Ha Hb. unfold absorbObligation, absorb.
  set (d := debtor o) in *. set (c := creditor o) in *.
  set (amt := obligation_amount o).
  pose proof (H d c Hd Hc) as Hdc. pose proof (H a b Ha Hb) as Hab.
  assert (KR : String.eqb (pairKey c d) (pairKey d c) = false).
  { apply String.eqb_neq. intro E.
    destruct (pairKey_inj _ _ _ _ Hc Hd Hd Hc E). congruence. }
  assert (E1 : String.eqb (pairKey d c) (pairKey a b) = true -> a = d /\ b = c).
  { intro E. apply String.eqb_eq in E.
    destruct (pairKey_inj _ _ _ _ Hd Hc Ha Hb E). auto. }
  assert (E2 : String.eqb (pairKey d c) (pairKey b a) = true -> a = c /\ b = d).
  { intro E. apply String.eqb_eq in E.
    destruct (pairKey_inj _ _ _ _ Hd Hc Hb Ha E). auto. }
  assert (E3 : String.eqb (pairKey c d) (pairKey a b) = true -> a = c /\ b = d).
  { intro E. apply String.eqb_eq in E.
    destruct (pairKey_inj _ _ _ _ Hc Hd Ha Hb E). auto. }
  assert (E4 : String.eqb (pairKey c d) (pairKey b a) = true -> a = d /\ b = c).
  { intro E. apply String.eqb_eq in E.
    destruct (pairKey_inj _ _ _ _ Hc Hd Hb Ha E). auto. }
  destruct (Qgtb (getOrZero m (pairKey c d)) 0) eqn:G;
    [apply Qltb_lt in G | apply Qltb_ge in G];
    [destruct (Qle_bool amt (getOrZero m (pairKey c d))) eqn:L;
     [apply Qle_bool_iff in L | apply Qle_bool_gt in L]|];
    rewrite ?getOrZero_set; rewrite ?KR;
    destruct (String.eqb (pairKey d c) (pairKey a b)) eqn:X1;
    destruct (String.eqb (pairKey d c) (pairKey b a)) eqn:X2;
    destruct (String.eqb (pairKey c d) (pairKey a b)) eqn:X3;
    destruct (String.eqb (pairKey c d) (pairKey b a)) eqn:X4;
    try (destruct (E1 eq_refl); subst a b);
    try (destruct (E2 eq_refl); subst a b);
    try (destruct (E3 eq_refl); subst a b);
    try (destruct (E4 eq_refl); subst a b);
    try congruence;
    rewrite ?String.eqb_refl in *; try discriminate;
    intros [P1 P2]; try (apply Hdc; split; lra); try (apply Hab; split; lra); try lra;
    try (destruct (E1 eq_refl); congruence); try (destruct (E2 eq_refl); congruence);
    try (destruct (E3 eq_refl); congruence); try (destruct (E4 eq_refl); congruence).
Qed.

Lemma fold_absorb_invariants obligations m :
  (forall o, In o obligations -> properObligation o) ->
  NoDup (keys m) -> pairKeys m -> oneWay m ->
  NoDup (keys (fold_left absorbObligation obligations m))
  /\ pairKeys (fold_left absorbObligation obligations m)
  /\ oneWay (fold_left absorbObligation obligations m).
Proof.
  revert m. induction obligations as [|o os IH]; intros m H N P W; simpl; [auto|].
  apply IH.
  - intros x Ix. apply H. now right.
  - now apply absorb_keys_NoDup.
  - apply absorb_pairKeys; [apply H; now left | assumption].
  - apply absorb_oneWay; [apply H; now left | assumption].
Qed.

Lemma buildBalanceMap_invariants expenses :
  colonFreeExpenses expenses ->
  NoDup (keys (buildBalanceMap expenses))
  /\ pairKeys (buildBalanceMap expenses)
  /\ oneWay (buildBalanceMap expenses).
Proof.
  intro H. rewrite buildBalanceMap_obligations. apply fold_absorb_invariants.
  - now apply pairwiseObligations_proper.
  - constructor.
  - intros k [].
  - intros a b _ _ [P _]. unfold getOrZero in P. simpl in P. lra.
Qed.

Lemma map_get_NoDup {V} (m : JsMap V) k v :
  NoDup (keys m) -> In (k, v) m -> map_get m k = Some v.
Proof.
  unfold keys. induction m as [|[k0 v0] r IH]; simpl; intros N I; [contradiction|].
  inversion N; subst. destruct I as [E|I].
  - inversion E; subst. now rewrite String.eqb_refl.
  - destruct (String.eqb k0 k) eqn:E; [|now apply IH].
    apply String.eqb_eq in E. subst k0. exfalso. apply H1.
    apply in_map_iff. exists (k, v). auto.
Qed.

(** A row of the builder comes from an entry of the pair map above the
    tolerance. *)
Lemma balanceRows_In groupId names m r :
  In r (balanceRows groupId names m) ->
  exists key amt,
    In (key, amt) m /\ tolerance < amt
    /\ (from_user r, to_user r) = keyUsers key /\ owes r = round2 amt.
Proof.
  unfold balanceRows. intro I. apply in_flat_map in I.
  destruct I as ([key amt] & Ie & I). unfold balanceRow in I.
  destruct (Qgtb amt tolerance) eqn:G; [|contradiction].
  apply Qltb_lt in G. exists key, amt.
  destruct (keyUsers key) as [a b]. destruct I as [<-|[]]. simpl. auto.
Qed.

(** Solves [colonFreeExpenses] for a list of expenses that is written out. *)
Ltac colon_free :=
  let e := fresh "e" in
  let I := fresh "I" in
  intros e I; simpl in I;
  repeat (destruct I as [<-|I]; [split; [reflexivity|]; simpl;
                                 let ss := fresh "ss" in
                                 let s := fresh "s" in
                                 let Es := fresh "Es" in
                                 let Is := fresh "Is" in
                                 intros ss s Es Is; inversion Es; subst ss; simpl in Is;
                                 repeat (destruct Is as [<-|Is]; [reflexivity|]);
                                 contradiction|]);
  contradiction.

(** X1. Every row that [getGroupBalances] returns carries a whole number of
    paise, at least one paisa.  *)
Theorem getGroupBalances_rows_positive (groupId : string) (expenses : list Expense)
        (members : list GroupMember) (r : UserBalance) :
  In r (getGroupBalances groupId expenses members) ->
  tolerance <= owes r /\ is2dp (owes r).
Proof.
  intro I. unfold getGroupBalances in I.
  destruct (balanceRows_In _ _ _ _ I) as (key & amt & _ & G & _ & ->).
  split; [now apply round2_pos | apply round2_is2dp].
Qed.

(** X1 on the first row of [chainExpenses]. *)
Lemma getGroupBalances_rows_positive_witness :
  tolerance <= owes (mkUserBalance "g" "B" "A" (round2 (0 + 10)) None None)
  /\ is2dp (owes (mkUserBalance "g" "B" "A" (round2 (0 + 10)) None None)).
Proof.
  apply (getGroupBalances_rows_positive "g" chainExpenses []).
  vm_compute. left. reflexivity.
Defined.

Lemma balanceRows_pairs groupId names m :
  NoDup (keys m) -> pairKeys m ->
  NoDup (map (fun r => (from_user r, to_user r)) (balanceRows groupId names m)).
Proof.
  unfold balanceRows. induction m as [|[k v] rest IH]; intros N P; simpl.
  - constructor.
  - unfold keys in N. simpl in N. inversion N; subst.
    assert (Pr : pairKeys rest).
    { intros x Ix. apply P. unfold keys. simpl. now right. }
    specialize (IH H2 Pr). rewrite map_app. unfold balanceRow at 1.
    destruct (Qgtb v tolerance); [|exact IH].
    destruct (keyUsers k) as [a b] eqn:K. simpl. constructor; [|exact IH].
    intro I. apply in_map_iff in I. destruct I as (r & E & Ir). simpl in E.
    fold (balanceRows groupId names rest) in Ir.
    destruct (balanceRows_In _ _ _ _ Ir) as (key & amt & Ie & _ & Ek & _).
    destruct (P k (or_introl eq_refl)) as (a1 & b1 & Ha1 & Hb1 & _ & ->).
    destruct (Pr key) as (a2 & b2 & Ha2 & Hb2 & _ & ->).
    { unfold keys. apply in_map_iff. exists (key, amt). auto. }
    rewrite keyUsers_pairKey in K, Ek by assumption.
    apply H1. apply in_map_iff. exists (pairKey a2 b2, amt). split; [|assumption].
    simpl. congruence.
Qed.

Lemma builder_rows_pairs (groupId : string) (expenses : list Expense)
        (members : list GroupMember) :
  colonFreeExpenses expenses ->
  (forall r, In r (getGroupBalances groupId expenses members) ->
             from_user r <> to_user r)
  /\ NoDup (map (fun r => (from_user r, to_user r))
                (getGroupBalances groupId expenses members)).
Proof.
  intro H. destruct (buildBalanceMap_invariants expenses H) as (N & P & _).
  unfold getGroupBalances. split.
  - intros r I.
    destruct (balanceRows_In _ _ _ _ I) as (key & amt & Ie & _ & Ek & _).
    destruct (P key) as (a & b & Ha & Hb & Ne & ->).
    { unfold keys. apply in_map_iff. exists (key, amt). auto. }
    rewrite keyUsers_pairKey in Ek by assumption. congruence.
  - now apply balanceRows_pairs.
Qed.

(** X2. When no id contains a colon, every row of [getGroupBalances] names
    two different members, and no ordered pair of members has two rows. *)
Theorem getGroupBalances_rows_pairs (groupId : string) (expenses : list Expense)
        (members : list GroupMember) :
  colonFreeExpenses expenses ->
  (forall r, In r (getGroupBalances groupId expenses members) ->
             from_user r <> to_user r)
  /\ NoDup (map (fun r => (from_user r, to_user r))
                (getGroupBalances groupId expenses members)).
Proof.
  apply builder_rows_pairs.
Qed.

(** X2 on [chainExpenses]. *)
Lemma getGroupBalances_rows_pairs_witness :
  (forall r, In r (getGroupBalances "g" chainExpenses []) -> from_user r <> to_user r)
  /\ NoDup (map (fun r => (from_user r, to_user r))
                (getGroupBalances "g" chainExpenses [])).
Proof.
  apply (getGroupBalances_rows_pairs "g" chainExpenses []). colon_free.
Defined.

Lemma builder_rows_one_way (groupId : string) (expenses : list Expense)
        (members : list GroupMember) (r1 r2 : UserBalance) :
  colonFreeExpenses expenses ->
  In r1 (getGroupBalances groupId expenses members) ->
  In r2 (getGroupBalances groupId expenses members) ->
  ~ (from_user r1 = to_user r2 /\ to_user r1 = from_user r2).
Proof.
  intros H I1 I2 [E1 E2].
  destruct (buildBalanceMap_invariants expenses H) as (N & P & W).
  unfold getGroupBalances in I1, I2.
  destruct (balanceRows_In _ _ _ _ I1) as (k1 & v1 & Ie1 & G1 & Ek1 & _).
  destruct (balanceRows_In _ _ _ _ I2) as (k2 & v2 & Ie2 & G2 & Ek2 & _).
  destruct (P k1) as (a1 & b1 & Ha1 & Hb1 & _ & ->).
  { unfold keys. apply in_map_iff. exists (k1, v1). auto. }
  destruct (P k2) as (a2 & b2 & Ha2 & Hb2 & _ & ->).
  { unfold keys. apply in_map_iff. exists (k2, v2). auto. }
  rewrite keyUsers_pairKey in Ek1, Ek2 by assumption.
  injection Ek1 as F1 T1. injection Ek2 as F2 T2.
  assert (X : pairKey a2 b2 = pairKey b1 a1) by congruence.
  rewrite X in Ie2.
  apply (W a1 b1 Ha1 Hb1).
  unfold getOrZero.
  rewrite (map_get_NoDup _ _ _ N Ie1), (map_get_NoDup _ _ _ N Ie2).
  unfold tolerance in *. split; lra.
Qed.

(** X3. When no id contains a colon, the rows of [getGroupBalances] never
    say that two members owe each other: with a row from A to B there is no
    row from B to A. *)
Theorem getGroupBalances_one_way (groupId : string) (expenses : list Expense)
        (members : list GroupMember) (r1 r2 : UserBalance) :
  colonFreeExpenses expenses ->
  In r1 (getGroupBalances groupId expenses members) ->
  In r2 (getGroupBalances groupId expenses members) ->
  ~ (from_user r1 = to_user r2 /\ to_user r1 = from_user r2).
Proof.
  apply builder_rows_one_way.
Qed.

(** X3 on the two rows of [chainExpenses]. *)
Lemma getGroupBalances_one_way_witness :
  ~ (from_user (mkUserBalance "g" "B" "A" (round2 (0 + 10)) None None)
     = to_user (mkUserBalance "g" "C" "B" (round2 (0 + 10)) None None)
     /\ to_user (mkUserBalance "g" "B" "A" (round2 (0 + 10)) None None)
        = from_user (mkUserBalance "g" "C" "B" (round2 (0 + 10)) None None)).
Proof.
  apply (getGroupBalances_one_way "g" chainExpenses []).
  - colon_free.
  - vm_compute. left. reflexivity.
  - vm_compute. right. left. reflexivity.
Defined.

(** * Further properties of the netter and of the validator *)


Lemma pipeline_total_zero groupId expenses members :
  totalBalance (simplifyBalances (getGroupBalances groupId expenses members)) == 0.
Proof.
  unfold simplifyBalances. rewrite simplified_total.
  - apply aggregateRows_total.
  - apply aggregateRows_paise. intros r I.
    unfold getGroupBalances in I. eapply balanceRows_paise; eassumption.
Qed.

Lemma validateCashFlow_total originalBalances transactions :
  validateCashFlow originalBalances transactions
  = Qltb (Qabs (totalBalance originalBalances)) tolerance.
Proof.
  unfold validateCashFlow. rewrite fold_transactionTotal, fold_total.
  setoid_replace (0 + totalBalance originalBalances)
    with (totalBalance originalBalances) by ring.
  replace (Qltb (Qabs 0) tolerance) with true by reflexivity.
  apply andb_true_r.
Qed.


(** * Further properties of the planner *)

Lemma nonZero_tracksInput balances : tracksInput balances (nonZero balances).
Proof.
  intros b I. unfold nonZero in I. apply filter_In in I. destruct I as [I G].
  apply Qltb_lt in G. exists b. repeat split; auto; intro S.
  - rewrite Qabs_pos in G by lra. exact G.
  - rewrite Qabs_neg in G by lra. lra.
Qed.

Lemma loopBody_tracksInput balances nz t rest :
  tracksInput balances nz -> loopBody nz = Settle t rest ->
  tracksInput balances rest
  /\ (exists b, In b balances /\ user_id b = from t /\ net_amount b < - tolerance)
  /\ (exists b, In b balances /\ user_id b = to t /\ tolerance < net_amount b)
  /\ tolerance <= flow_amount t.
Proof.
  intros T H. destruct (loopBody_Settle _ _ _ H) as (creditor & debtor & F).
  destruct F as [C D Hc Hd Ne Et Er].
  set (s := Qmin (net_amount creditor) (Qabs (net_amount debtor))) in *.
  set (ci := maxCreditorIndex nz) in *. set (di := maxDebtorIndex nz) in *.
  destruct (settlement_amount _ _ Hc Hd) as (Sp & Sz). fold s in Sp, Sz.
  assert (Sc : s <= net_amount creditor) by (destruct Sz as [[Z ?]|[Z ?]]; lra).
  assert (Sd : s <= - net_amount debtor) by (destruct Sz as [[Z ?]|[Z ?]]; lra).
  destruct (T creditor (nth_error_In _ _ C)) as (c0 & Ic0 & Idc & Pc & _).
  destruct (T debtor (nth_error_In _ _ D)) as (d0 & Id0 & Idd & _ & Nd).
  unfold tolerance in *.
  split; [|split; [|split]].
  - intros x Ix. rewrite Er in Ix. apply removeSettled_incl in Ix.
    destruct (In_nth_error _ _ Ix) as (j & Hj).
    destruct (Nat.eq_dec j ci) as [->|Nc]; [|destruct (Nat.eq_dec j di) as [->|Nj]].
    + rewrite (updateBalances_creditor _ _ _ _ _ Ne C) in Hj. inversion Hj; subst x.
      exists c0. simpl. repeat split; auto; intro S; [apply Pc|]; lra.
    + rewrite (updateBalances_debtor _ _ _ _ _ Ne D) in Hj. inversion Hj; subst x.
      exists d0. simpl. repeat split; auto; intro S; [|apply Nd]; lra.
    + rewrite updateBalances_other in Hj by assumption.
      apply T. eapply nth_error_In; eassumption.
  - exists d0. rewrite Et. simpl. repeat split; auto. apply Nd. lra.
  - exists c0. rewrite Et. simpl. repeat split; auto. apply Pc. lra.
  - rewrite Et. simpl. apply (round2_pos s). exact Sp.
Qed.

(** X6. For every input, each transaction of [calculateMinCashFlow] is paid
    by a member whose input balance is below -0.01 to a member whose input
    balance is above 0.01, and its amount is at least one paisa. *)
Theorem calculateMinCashFlow_direction (balances : list SimplifiedBalance)
        (t : DebtFlow) :
  In t (calculateMinCashFlow balances) ->
  (exists b, In b balances /\ user_id b = from t /\ net_amount b < - tolerance)
  /\ (exists b, In b balances /\ user_id b = to t /\ tolerance < net_amount b)
  /\ tolerance <= flow_amount t.
Proof.
  intro I. unfold calculateMinCashFlow in I. rewrite runMinCashFlow_loop in I.
  destruct (settleLoop _ _ _ _) as [[out q]|] eqn:E; [|contradiction].
  revert t I. apply Forall_forall.
  apply (settleLoop_all (tracksInput balances)
           (fun t => (exists b, In b balances /\ user_id b = from t
                                /\ net_amount b < - tolerance)
                     /\ (exists b, In b balances /\ user_id b = to t
                                   /\ tolerance < net_amount b)
                     /\ tolerance <= flow_amount t))
    with (fuel := List.length (nonZero balances)) (nz := nonZero balances) (q := q).
  - intros nz t rest Inv B.
    destruct (loopBody_tracksInput _ _ _ _ Inv B) as (Tr & P1 & P2 & P3). auto.
  - apply nonZero_tracksInput.
  - exact E.
Qed.

(** X6 on the first transaction for [threeMembers]. *)
Lemma calculateMinCashFlow_direction_witness :
  (exists b, In b threeMembers
             /\ user_id b = from (mkFlow "A" "B" (round2 40) "Alice" "Bob")
             /\ net_amount b < - tolerance)
  /\ (exists b, In b threeMembers
                /\ user_id b = to (mkFlow "A" "B" (round2 40) "Alice" "Bob")
                /\ tolerance < net_amount b)
  /\ tolerance <= flow_amount (mkFlow "A" "B" (round2 40) "Alice" "Bob").
Proof.
  apply (calculateMinCashFlow_direction threeMembers).
  vm_compute. left. reflexivity.
Defined.

Lemma two_entries {A} (l : list A) x y :
  In x l -> In y l -> x <> y -> (1 < List.length l)%nat.
Proof.
  destruct l as [|a [|b r]]; simpl; intros Ix Iy Ne; try contradiction; [|lia].
  destruct Ix as [<-|[]]. destruct Iy as [<-|[]]. congruence.
Qed.

(** A pass emits a transaction as soon as the list has a balance above the
    tolerance and a balance below its opposite. *)
Lemma loopBody_settles nz x y :
  In x nz -> In y nz -> tolerance < net_amount x -> net_amount y < - tolerance ->
  exists t rest, loopBody nz = Settle t rest.
Proof.
  intros Ix Iy Hx Hy.
  assert (NE : nz <> []) by (intro E; subst; contradiction).
  destruct (maxCreditorIndex_spec nz NE) as (Rc & Cmax & _).
  destruct (maxDebtorIndex_spec nz NE) as (Rd & Dmin & _).
  destruct (In_nth_error _ _ Ix) as (i & Hi).
  destruct (In_nth_error _ _ Iy) as (j & Hj).
  specialize (Cmax i (nth_error_lt _ _ _ Hi)).
  specialize (Dmin j (nth_error_lt _ _ _ Hj)).
  rewrite (amountAt_nth _ _ _ Hi) in Cmax. rewrite (amountAt_nth _ _ _ Hj) in Dmin.
  unfold loopBody.
  destruct (nth_error nz (maxCreditorIndex nz)) as [creditor|] eqn:C;
    [|apply nth_error_None in C; lia].
  destruct (nth_error nz (maxDebtorIndex nz)) as [debtor|] eqn:D;
    [|apply nth_error_None in D; lia].
  rewrite (amountAt_nth _ _ _ C) in Cmax. rewrite (amountAt_nth _ _ _ D) in Dmin.
  assert (Lc : Qle_bool (net_amount creditor) tolerance = false)
    by (apply Qle_bool_gt; lra).
  assert (Ld : Qle_bool (- tolerance) (net_amount debtor) = false)
    by (apply Qle_bool_gt; lra).
  rewrite Lc, Ld. simpl. eauto.
Qed.

Lemma settleLoop_step fuel nz transactions passes t rest :
  (1 < List.length nz)%nat -> loopBody nz = Settle t rest ->
  settleLoop (S fuel) nz transactions passes
  = settleLoop fuel rest (transactions ++ [t]) (S passes).
Proof.
  intros L B. simpl. apply Nat.leb_gt in L. now rewrite L, B.
Qed.

Lemma plan_direction balances :
  Forall (fun t => (exists b, In b balances /\ user_id b = from t
                              /\ net_amount b < - tolerance)
                   /\ (exists b, In b balances /\ user_id b = to t
                                 /\ tolerance < net_amount b))
         (calculateMinCashFlow balances).
Proof.
  unfold calculateMinCashFlow. rewrite runMinCashFlow_loop.
  destruct (settleLoop _ _ _ _) as [[out q]|] eqn:E; [|constructor].
  apply (settleLoop_all (tracksInput balances)
           (fun t => (exists b, In b balances /\ user_id b = from t
                                /\ net_amount b < - tolerance)
                     /\ (exists b, In b balances /\ user_id b = to t
                                   /\ tolerance < net_amount b)))
    with (fuel := List.length (nonZero balances)) (nz := nonZero balances) (q := q).
  - intros nz t rest Inv B.
    destruct (loopBody_tracksInput _ _ _ _ Inv B) as (Tr & P1 & P2 & P3). auto.
  - apply nonZero_tracksInput.
  - exact E.
Qed.

(** X7. [calculateMinCashFlow] returns no transaction exactly when no balance
    is above 0.01 or no balance is below -0.01: the empty list, a settled
    group, a single open balance and balances that are all on one side give
    an empty plan, and nothing else does. *)
Theorem calculateMinCashFlow_empty_iff (balances : list SimplifiedBalance) :
  calculateMinCashFlow balances = []
  <-> (forall b, In b balances -> net_amount b <= tolerance)
      \/ (forall b, In b balances -> - tolerance <= net_amount b).
Proof.
  split.
  - intro E.
    destruct (existsb (fun b => Qgtb (net_amount b) tolerance) balances) eqn:Xc.
    + destruct (existsb (fun b => Qltb (net_amount b) (- tolerance)) balances) eqn:Xd.
      * exfalso.
        apply existsb_exists in Xc. destruct Xc as (x & Ix & Hx). apply Qltb_lt in Hx.
        apply existsb_exists in Xd. destruct Xd as (y & Iy & Hy). apply Qltb_lt in Hy.
        assert (Nx : In x (nonZero balances)).
        { unfold nonZero. apply filter_In. split; [assumption|].
          apply Qltb_lt. rewrite Qabs_pos; unfold tolerance in *; lra. }
        assert (Ny : In y (nonZero balances)).
        { unfold nonZero. apply filter_In. split; [assumption|].
          apply Qltb_lt. rewrite Qabs_neg; unfold tolerance in *; lra. }
        assert (L : (1 < List.length (nonZero balances))%nat).
        { apply (two_entries _ x y); auto. intro Eq. subst y.
          unfold tolerance in *. lra. }
        destruct (loopBody_settles _ x y Nx Ny Hx Hy) as (t & rest & B).
        unfold calculateMinCashFlow in E. rewrite runMinCashFlow_loop in E.
        replace (List.length (nonZero balances))
          with (S (List.length (nonZero balances) - 1)) in E by lia.
        rewrite (settleLoop_step _ _ _ _ _ _ L B), settleLoop_acc in E.
        pose proof (loopBody_shrinks _ _ _ B) as Sh.
        destruct (settleLoop_terminates (List.length (nonZero balances) - 1) rest)
          as (out & q & Eo & _); [lia|].
        rewrite Eo in E. discriminate.
      * right. intros b I. apply Qltb_ge.
        destruct (Qltb (net_amount b) (- tolerance)) eqn:G; [|reflexivity].
        assert (existsb (fun b => Qltb (net_amount b) (- tolerance)) balances = true)
          by (apply existsb_exists; eauto).
        congruence.
    + left. intros b I. apply Qltb_ge. unfold Qgtb in Xc.
      destruct (Qltb tolerance (net_amount b)) eqn:G; [|reflexivity].
      assert (existsb (fun b => Qltb tolerance (net_amount b)) balances = true)
        by (apply existsb_exists; eauto).
      congruence.
  - intro H. pose proof (plan_direction balances) as D.
    destruct (calculateMinCashFlow balances) as [|t ts]; [reflexivity|].
    exfalso. inversion D as [|? ? [(d & Id & _ & Hd) (c & Ic & _ & Hc)] _]; subst.
    destruct H as [H|H].
    + specialize (H c Ic). lra.
    + specialize (H d Id). lra.
Qed.

(** The transactions of a plan name members of the input only. *)
Lemma plan_mentions balances :
  Forall (mentionsOnly (map user_id balances)) (calculateMinCashFlow balances).
Proof.
  pose proof (plan_direction balances) as D.
  eapply Forall_impl; [|exact D].
  intros t [(d & Id & Ed & _) (c & Ic & Ec & _)]. unfold mentionsOnly.
  rewrite <- Ed, <- Ec. split; now apply in_map.
Qed.

Lemma pick_sum (k : string) (v : Q) (l : list SimplifiedBalance) :
  distinctIds l -> In k (map user_id l) ->
  sumQ (map (fun b => if String.eqb k (user_id b) then v else 0) l) == v.
Proof.
  unfold distinctIds. induction l as [|b r IH]; simpl; intros N I; [contradiction|].
  inversion N; subst. destruct (String.eqb k (user_id b)) eqn:E.
  - apply String.eqb_eq in E. subst k.
    assert (Z : sumQ (map (fun x => if String.eqb (user_id b) (user_id x) then v else 0) r)
                == 0).
    { clear IH I N H2. induction r as [|x r IH]; simpl; [reflexivity|].
      destruct (String.eqb (user_id b) (user_id x)) eqn:E.
      - apply String.eqb_eq in E. exfalso. apply H1. simpl. now left.
      - rewrite IH; [lra|]. intro J. apply H1. simpl. now right. }
    rewrite Z. lra.
  - apply String.eqb_neq in E. destruct I as [I|I]; [congruence|].
    rewrite IH by assumption. lra.
Qed.

Lemma applyFlow_total t l :
  distinctIds l -> mentionsOnly (map user_id l) t ->
  totalBalance (map (applyFlow t) l) == totalBalance l.
Proof.
  intros N [Mf Mt].
  assert (G : totalBalance (map (applyFlow t) l)
              == totalBalance l
                 - sumQ (map (fun b => if String.eqb (to t) (user_id b)
                                       then flow_amount t else 0) l)
                 + sumQ (map (fun b => if String.eqb (from t) (user_id b)
                                       then flow_amount t else 0) l)).
  { clear. induction l as [|b r IH]; simpl map.
    - rewrite totalBalance_nil. simpl. lra.
    - rewrite !totalBalance_cons, IH. simpl. lra. }
  rewrite G, !pick_sum by assumption. lra.
Qed.

Lemma applyFlow_ids t l : map user_id (map (applyFlow t) l) = map user_id l.
Proof.
  rewrite map_map. reflexivity.
Qed.

Lemma applyPlan_total plan l :
  distinctIds l -> Forall (mentionsOnly (map user_id l)) plan ->
  totalBalance (applyPlan plan l) == totalBalance l.
Proof.
  unfold applyPlan. revert l. induction plan as [|t ts IH]; intros l N M; simpl.
  - reflexivity.
  - inversion M; subst. rewrite IH.
    + now apply applyFlow_total.
    + unfold distinctIds. now rewrite applyFlow_ids.
    + now rewrite applyFlow_ids.
Qed.

(** X8. When the balance list names every member once, applying the plan of
    [calculateMinCashFlow] moves money between members only: the sum of the
    balances after the plan is the sum before it. *)
Theorem calculateMinCashFlow_keeps_total (balances : list SimplifiedBalance) :
  distinctIds balances ->
  totalBalance (applyPlan (calculateMinCashFlow balances) balances)
  == totalBalance balances.
Proof.
  intro N. apply applyPlan_total; [assumption | apply plan_mentions].
Qed.

(** X8 on [threeMembers]. *)
Lemma calculateMinCashFlow_keeps_total_witness :
  totalBalance (applyPlan (calculateMinCashFlow threeMembers) threeMembers)
  == totalBalance threeMembers.
Proof.
  apply (calculateMinCashFlow_keeps_total threeMembers).
  unfold distinctIds. simpl. repeat constructor; simpl; intuition discriminate.
Defined.

Lemma towardsZero_trans x y z : towardsZero x y -> towardsZero y z -> towardsZero x z.
Proof.
  unfold towardsZero. intros [A B] [C D]. split; intro H.
  - destruct (A H). destruct (C ltac:(assumption)). split; lra.
  - destruct (B H). destruct (D ltac:(assumption)). split; lra.
Qed.

#[export] Instance towardsZero_comp : Proper (Qeq ==> Qeq ==> iff) towardsZero.
Proof.
  intros x x' Ex y y' Ey. unfold towardsZero. rewrite Ex, Ey. reflexivity.
Qed.

(** One transaction of a pass moves every balance of the list towards zero,
    and not beyond. *)
Lemma pass_effect nz t rest :
  distinctIds nz -> wholePaise nz -> loopBody nz = Settle t rest ->
  forall b, In b nz ->
            towardsZero (net_amount b) (net_amount b + flowEffect t (user_id b)).
Proof.
  intros N W H b I. destruct (loopBody_Settle _ _ _ H) as (creditor & debtor & F).
  destruct F as [C D Hc Hd Ne Et _].
  set (s := Qmin (net_amount creditor) (Qabs (net_amount debtor))) in *.
  assert (S2 : is2dp s).
  { apply is2dp_min; [|apply is2dp_abs]; apply W; eapply nth_error_In; eassumption. }
  destruct (settlement_amount _ _ Hc Hd) as (Sp & Sz). fold s in Sp, Sz.
  assert (IdNe : user_id creditor <> user_id debtor).
  { intro E. apply Ne.
    apply (distinctIds_nth nz _ _ creditor debtor); assumption. }
  pose proof (round2_2dp _ S2) as R2.
  rewrite Et. unfold flowEffect. cbn [flow_amount to from].
  destruct (String.eqb (user_id creditor) (user_id b)) eqn:Xc.
  - apply String.eqb_eq in Xc.
    assert (b = creditor).
    { apply (distinctIds_In nz); auto. eapply nth_error_In; eassumption. }
    subst b. assert (Xd : String.eqb (user_id debtor) (user_id creditor) = false)
      by (apply String.eqb_neq; congruence).
    rewrite Xd, R2. unfold towardsZero, tolerance in *.
    destruct Sz as [[Z ?]|[Z ?]]; split; intro; split; lra.
  - destruct (String.eqb (user_id debtor) (user_id b)) eqn:Xd.
    + apply String.eqb_eq in Xd.
      assert (b = debtor).
      { apply (distinctIds_In nz); auto. eapply nth_error_In; eassumption. }
      subst b. rewrite R2. unfold towardsZero, tolerance in *.
      destruct Sz as [[Z ?]|[Z ?]]; split; intro; split; lra.
    + unfold towardsZero. split; intro; split; lra.
Qed.

Lemma loop_towards fuel nz out q :
  distinctIds nz -> wholePaise nz ->
  settleLoop fuel nz [] 0%nat = Some (out, q) ->
  forall b, In b nz ->
            towardsZero (net_amount b) (net_amount b + planEffect out (user_id b)).
Proof.
  revert nz out q.
  assert (Idle : forall b : SimplifiedBalance,
             towardsZero (net_amount b) (net_amount b + planEffect [] (user_id b))).
  { intro b. change (planEffect [] (user_id b)) with 0.
    setoid_replace (net_amount b + 0) with (net_amount b) by ring.
    unfold towardsZero. split; intro; split; lra. }
  induction fuel as [|fuel IH]; intros nz out q N W H; simpl in H.
  - destruct (List.length nz <=? 1)%nat; [|discriminate].
    inversion H; subst. intros b _. apply Idle.
  - destruct (List.length nz <=? 1)%nat;
      [inversion H; subst; intros b _; apply Idle|].
    destruct (loopBody nz) as [|t rest] eqn:B;
      [inversion H; subst; intros b _; apply Idle|].
    rewrite settleLoop_acc in H.
    destruct (settleLoop fuel rest [] 0%nat) as [[out' q']|] eqn:E; [|discriminate].
    inversion H; subst; clear H. change ([] ++ t :: out') with (t :: out').
    destruct (pass_settles _ _ _ N W B) as (Wr & _ & _ & _ & Each).
    pose proof (loopBody_distinct _ _ _ N B) as Nr.
    destruct (loop_settles _ _ _ _ Nr Wr E) as (Mo & _).
    intros b I. pose proof (pass_effect _ _ _ N W B b I) as Pe.
    destruct (Each b I) as (b' & Ib & Ab & [Ir | [Gone _]]).
    + pose proof (IH rest out' q' Nr Wr E b' Ir) as Rest.
      rewrite Ib, Ab in Rest. rewrite planEffect_cons.
      setoid_replace (net_amount b
                      + (flowEffect t (user_id b) + planEffect out' (user_id b)))
        with (net_amount b + flowEffect t (user_id b)
              + planEffect out' (user_id b)) by ring.
      eapply towardsZero_trans; eassumption.
    + assert (Z : planEffect out' (user_id b) == 0).
      { apply planEffect_absent. eapply Forall_impl; [|exact Mo].
        intros x [Xf Xt]. split; intro Eq; apply Gone; congruence. }
      rewrite planEffect_cons, Z.
      setoid_replace (net_amount b + (flowEffect t (user_id b) + 0))
        with (net_amount b + flowEffect t (user_id b)) by ring.
      exact Pe.
Qed.

Lemma Forall2_map_self {A B} (R : A -> B -> Prop) (f : A -> B) (l : list A) :
  (forall x, In x l -> R x (f x)) -> Forall2 R l (map f l).
Proof.
  induction l as [|x r IH]; intro H; simpl; constructor.
  - apply H. now left.
  - apply IH. intros y Iy. apply H. now right.
Qed.

(** X9. For a balance list that names every member once and carries whole
    paise, the plan of [calculateMinCashFlow] overpays nobody: applied to the
    list, it leaves every member between zero and the member's input balance,
    so a creditor receives no more than it is owed, a debtor pays no more
    than it owes, and nobody changes sides. *)
Theorem calculateMinCashFlow_no_overshoot (balances : list SimplifiedBalance) :
  distinctIds balances -> wholePaise balances ->
  Forall2 (fun before after =>
             user_id after = user_id before
             /\ towardsZero (net_amount before) (net_amount after))
          balances (applyPlan (calculateMinCashFlow balances) balances).
Proof.
  intros N W. rewrite applyPlan_map. apply Forall2_map_self. intros b I.
  destruct (applyAll_spec (calculateMinCashFlow balances) b) as [Ei A].
  split; [exact Ei|]. rewrite A.
  unfold calculateMinCashFlow. rewrite runMinCashFlow_loop.
  destruct (settleLoop_terminates (List.length (nonZero balances)) (nonZero balances))
    as (out & q & E & _); [lia|].
  rewrite E.
  assert (Nz : distinctIds (nonZero balances)) by now apply distinctIds_filter.
  assert (Wz : wholePaise (nonZero balances)).
  { intros x Ix. apply W. unfold nonZero in Ix. apply filter_In in Ix. tauto. }
  destruct (Qgtb (Qabs (net_amount b)) tolerance) eqn:G.
  - apply (loop_towards _ _ _ _ Nz Wz E). unfold nonZero. apply filter_In. tauto.
  - destruct (loop_settles _ _ _ _ Nz Wz E) as (Mo & _).
    assert (Z : planEffect out (user_id b) == 0).
    { apply planEffect_absent. eapply Forall_impl; [|exact Mo].
      assert (Out : ~ In (user_id b) (map user_id (nonZero balances))).
      { intro J. apply in_map_iff in J. destruct J as (y & Ey & Iy).
        unfold nonZero in Iy. apply filter_In in Iy. destruct Iy as [Iy Gy].
        assert (y = b) by (apply (distinctIds_In balances); assumption). subst y.
        congruence. }
      intros x [Xf Xt]. split; intro Eq; apply Out; congruence. }
    rewrite Z. setoid_replace (net_amount b + 0) with (net_amount b) by ring.
    unfold towardsZero. split; intro; split; lra.
Qed.

Lemma threeMembers_wellformed : distinctIds threeMembers /\ wholePaise threeMembers.
Proof.
  split.
  - unfold distinctIds. simpl. repeat constructor; simpl; intuition discriminate.
  - intros b I. simpl in I.
    destruct I as [<-|[<-|[<-|[]]]]; simpl.
    + exists (-6000)%Z. reflexivity.
    + exists 4000%Z. reflexivity.
    + exists 2000%Z. reflexivity.
Qed.

(** X9 on [threeMembers]. *)
Lemma calculateMinCashFlow_no_overshoot_witness :
  Forall2 (fun before after =>
             user_id after = user_id before
             /\ towardsZero (net_amount before) (net_amount after))
          threeMembers (applyPlan (calculateMinCashFlow threeMembers) threeMembers).
Proof.
  apply (calculateMinCashFlow_no_overshoot threeMembers);
    apply threeMembers_wellformed.
Defined.

(** * The whole pipeline *)

Lemma plan_wellformed balances :
  distinctIds balances ->
  Forall (fun t => from t <> to t) (calculateMinCashFlow balances).
Proof.
  intro N. unfold calculateMinCashFlow. rewrite runMinCashFlow_loop.
  destruct (settleLoop _ _ _ _) as [[out q]|] eqn:E; [|constructor].
  apply (settleLoop_all distinctIds (fun t => from t <> to t))
    with (fuel := List.length (nonZero balances)) (nz := nonZero balances) (q := q).
  - intros nz t rest Inv B. split.
    + eapply loopBody_wellformed; eassumption.
    + eapply loopBody_distinct; eassumption.
  - now apply distinctIds_filter.
  - exact E.
Qed.

Lemma plan_residue balances :
  distinctIds balances -> wholePaise balances ->
  forall b, In b (applyPlan (calculateMinCashFlow balances) balances) ->
            Qabs (net_amount b) <= residueBound balances.
Proof.
  intros N W b' I.
  rewrite applyPlan_map in I. apply in_map_iff in I. destruct I as (b & <- & I).
  destruct (applyAll_spec (calculateMinCashFlow balances) b) as [_ A]. rewrite A.
  unfold calculateMinCashFlow. rewrite runMinCashFlow_loop.
  destruct (settleLoop_terminates (List.length (nonZero balances)) (nonZero balances))
    as (out & q & E & _); [lia|].
  rewrite E.
  assert (Nz : distinctIds (nonZero balances)) by now apply distinctIds_filter.
  assert (Wz : wholePaise (nonZero balances)).
  { intros x Ix. apply W. unfold nonZero in Ix. apply filter_In in Ix. tauto. }
  destruct (loop_settles _ _ _ _ Nz Wz E) as (Mo & Bound).
  destruct (Qgtb (Qabs (net_amount b)) tolerance) eqn:G.
  - eapply Qle_trans; [|apply nonZero_residueBound].
    apply Bound. unfold nonZero. apply filter_In. tauto.
  - assert (Z : planEffect out (user_id b) == 0).
    { apply planEffect_absent. eapply Forall_impl; [|exact Mo].
      assert (Out : ~ In (user_id b) (map user_id (nonZero balances))).
      { intro J. apply in_map_iff in J. destruct J as (y & Ey & Iy).
        unfold nonZero in Iy. apply filter_In in Iy. destruct Iy as [Iy Gy].
        assert (y = b) by (apply (distinctIds_In balances); assumption). subst y.
        congruence. }
      intros x [Xf Xt]. split; intro Eq; apply Out; congruence. }
    rewrite Z. setoid_replace (net_amount b + 0) with (net_amount b) by ring.
    apply Qltb_ge in G.
    destruct (le_lt_dec (List.length balances) 1) as [L|L].
    + now apply single_bound.
    + pose proof (size_ge_2 _ L). pose proof (Qabs_nonneg (totalBalance balances)).
      eapply Qle_trans; [exact G|]. unfold residueBound, tolerance. lra.
Qed.

Lemma pipelineBalances_wellformed groupId expenses members :
  distinctIds (pipelineBalances groupId expenses members)
  /\ wholePaise (pipelineBalances groupId expenses members).
Proof.
  unfold pipelineBalances, simplifyBalances. split.
  - unfold distinctIds. rewrite simplified_ids. apply aggregateRows_NoDup.
  - intros b I. apply in_map_iff in I. destruct I as (e & <- & _).
    apply round2_is2dp.
Qed.


(** * The balances of the group page *)

Lemma calculateSimplifiedBalances_unfold rawBalances members currentUserId :
  calculateSimplifiedBalances rawBalances members currentUserId
  = filter (fun b => Qgtb (Qabs (net_amount b)) tolerance)
           (map (fun entry =>
                   {| user_id := fst entry;
                      user_name := memberNameOf members (fst entry);
                      net_amount := snd entry |})
                (fold_left (pageStep currentUserId) rawBalances
                           (pageInit members currentUserId))).
Proof. reflexivity. Qed.

Lemma currentOf_set m k v k' :
  currentOf (map_set m k v) k' = if String.eqb k k' then v else currentOf m k'.
Proof. apply getOrZero_set. Qed.

Lemma pageInit_facts members currentUserId :
  NoDup (keys (pageInit members currentUserId))
  /\ forall id, currentOf (pageInit members currentUserId) id == 0.
Proof.
  unfold pageInit.
  assert (G : forall m, NoDup (keys m) -> (forall id, currentOf m id == 0) ->
                        NoDup (keys (fold_left
                                       (fun m g =>
                                          if String.eqb (member_user_id g) currentUserId
                                          then m else map_set m (member_user_id g) 0)
                                       members m))
                        /\ forall id, currentOf (fold_left
                                       (fun m g =>
                                          if String.eqb (member_user_id g) currentUserId
                                          then m else map_set m (member_user_id g) 0)
                                       members m) id == 0).
  { induction members as [|g gs IH]; intros m N Z; simpl; [auto|].
    apply IH.
    - destruct (String.eqb _ _); [assumption | now apply keys_set_NoDup].
    - intro id. destruct (String.eqb (member_user_id g) currentUserId); [apply Z|].
      rewrite currentOf_set. destruct (String.eqb _ id); [reflexivity | apply Z]. }
  apply G; [constructor | intro id; reflexivity].
Qed.

Lemma pageStep_facts currentUserId m r :
  NoDup (keys m) ->
  NoDup (keys (pageStep currentUserId m r))
  /\ forall id, currentOf (pageStep currentUserId m r) id
                == currentOf m id + viewEffect currentUserId r id.
Proof.
  intro N. unfold pageStep, viewEffect.
  destruct (String.eqb (from_user r) currentUserId).
  - split; [now apply keys_set_NoDup|]. intro id. rewrite currentOf_set.
    destruct (String.eqb (to_user r) id) eqn:E; [|lra].
    apply String.eqb_eq in E. subst id. lra.
  - destruct (String.eqb (to_user r) currentUserId).
    + split; [now apply keys_set_NoDup|]. intro id. rewrite currentOf_set.
      destruct (String.eqb (from_user r) id) eqn:E; [|lra].
      apply String.eqb_eq in E. subst id. lra.
    + split; [assumption|]. intro id. lra.
Qed.

Lemma pageFold_facts currentUserId rows m :
  NoDup (keys m) ->
  NoDup (keys (fold_left (pageStep currentUserId) rows m))
  /\ forall id, currentOf (fold_left (pageStep currentUserId) rows m) id
                == currentOf m id + viewTotal currentUserId rows id.
Proof.
  unfold viewTotal. revert m. induction rows as [|r rs IH]; intros m N; simpl.
  - split; [assumption|]. intro id. lra.
  - destruct (pageStep_facts currentUserId m r N) as [N1 A1].
    destruct (IH _ N1) as [N2 A2]. split; [assumption|].
    intro id. rewrite A2, A1. lra.
Qed.

(** Looking a member up in the filtered list of a map with distinct keys. *)
Lemma balanceOf_page (name : string -> string) (m : JsMap Q) id :
  NoDup (keys m) ->
  balanceOf id (filter (fun b => Qgtb (Qabs (net_amount b)) tolerance)
                       (map (fun entry =>
                               {| user_id := fst entry;
                                  user_name := name (fst entry);
                                  net_amount := snd entry |}) m))
  = if Qgtb (Qabs (currentOf m id)) tolerance then currentOf m id else 0.
Proof.
  unfold balanceOf, currentOf, keys.
  induction m as [|[k v] r IH]; intro N; simpl; [reflexivity|].
  inversion N; subst.
  destruct (String.eqb k id) eqn:E.
  - destruct (Qgtb (Qabs v) tolerance) eqn:G; simpl.
    + now rewrite E.
    + apply String.eqb_eq in E. subst k.
      assert (F : find (fun b => String.eqb (user_id b) id)
                       (filter (fun b => Qgtb (Qabs (net_amount b)) tolerance)
                               (map (fun entry =>
                                       {| user_id := fst entry;
                                          user_name := name (fst entry);
                                          net_amount := snd entry |}) r)) = None).
      { destruct (find _ _) as [b|] eqn:Fb; [|reflexivity].
        exfalso. apply find_some in Fb. destruct Fb as [Ib Eb].
        apply filter_In in Ib. destruct Ib as [Ib _].
        apply in_map_iff in Ib. destruct Ib as ([k' v'] & <- & Ie).
        simpl in Eb. apply String.eqb_eq in Eb. subst k'.
        apply H1. apply in_map_iff. exists (id, v'). auto. }
      now rewrite F.
  - destruct (Qgtb (Qabs v) tolerance); simpl; [rewrite E|]; now apply IH.
Qed.

Lemma page_ids (name : string -> string) (m : JsMap Q) :
  NoDup (keys m) ->
  NoDup (map user_id
             (filter (fun b => Qgtb (Qabs (net_amount b)) tolerance)
                     (map (fun entry =>
                             {| user_id := fst entry;
                                user_name := name (fst entry);
                                net_amount := snd entry |}) m))).
Proof.
  intro N. apply (distinctIds_filter _ _). unfold distinctIds.
  rewrite map_map. exact N.
Qed.

Lemma page_balance rawBalances members currentUserId id :
  balanceOf id (calculateSimplifiedBalances rawBalances members currentUserId)
  == if Qgtb (Qabs (viewTotal currentUserId rawBalances id)) tolerance
     then viewTotal currentUserId rawBalances id else 0.
Proof.
  rewrite calculateSimplifiedBalances_unfold.
  destruct (pageInit_facts members currentUserId) as [N0 Z0].
  destruct (pageFold_facts currentUserId rawBalances _ N0) as [N A].
  rewrite (balanceOf_page _ _ id N).
  assert (E : currentOf (fold_left (pageStep currentUserId) rawBalances
                                   (pageInit members currentUserId)) id
              == viewTotal currentUserId rawBalances id).
  { rewrite A, Z0. lra. }
  assert (B : Qgtb (Qabs (currentOf (fold_left (pageStep currentUserId) rawBalances
                                               (pageInit members currentUserId)) id))
                   tolerance
              = Qgtb (Qabs (viewTotal currentUserId rawBalances id)) tolerance).
  { unfold Qgtb. apply Qltb_comp; [reflexivity | now rewrite E]. }
  rewrite B.
  destruct (Qgtb (Qabs (viewTotal currentUserId rawBalances id)) tolerance);
    [exact E | reflexivity].
Qed.


Lemma sum_zero {A} (f : A -> Q) (l : list A) :
  (forall x, In x l -> f x == 0) -> sumQ (map f l) == 0.
Proof.
  induction l as [|y l IH]; intro H; cbn [map sumQ]; [reflexivity|].
  rewrite (H y) by now left.
  rewrite IH by (intros x Ix; apply H; now right). lra.
Qed.

Lemma sum_single {A} (f : A -> Q) (l : list A) (r : A) :
  NoDup l -> In r l -> (forall x, In x l -> x <> r -> f x == 0) ->
  sumQ (map f l) == f r.
Proof.
  induction l as [|y l IH]; intros N I H; [contradiction|].
  cbn [map sumQ]. inversion N; subst. destruct I as [->|I].
  - rewrite sum_zero; [lra|].
    intros x Ix. apply H; [now right|]. intro E. subst x. contradiction.
  - rewrite (H y); [|now left | intro E; subst y; contradiction].
    rewrite IH; [lra | assumption | assumption |].
    intros x Ix. apply H. now right.
Qed.

Lemma NoDup_map_In_inj {A B} (f : A -> B) (l : list A) x y :
  NoDup (map f l) -> In x l -> In y l -> f x = f y -> x = y.
Proof.
  induction l as [|z l IH]; simpl; intros N Ix Iy E; [contradiction|].
  inversion N; subst. destruct Ix as [->|Ix]; destruct Iy as [->|Iy]; auto.
  - exfalso. apply H1. rewrite E. now apply in_map.
  - exfalso. apply H1. rewrite <- E. now apply in_map.
Qed.

(** X12. The group page on the rows of [getGroupBalances] (no colon in an
    id): a member to whom the current user owes a row's amount is listed
    with that amount as a positive balance, and a member who owes the
    current user is listed with the opposite of the amount, provided the
    amount is above 0.01; a row of exactly one paisa lists nobody. *)
Theorem page_of_builder_rows (groupId : string) (expenses : list Expense)
        (members pageMembers : list GroupMember) (currentUserId : string)
        (r : UserBalance) :
  colonFreeExpenses expenses ->
  In r (getGroupBalances groupId expenses members) ->
  (from_user r = currentUserId ->
   balanceOf (to_user r)
             (calculateSimplifiedBalances (getGroupBalances groupId expenses members)
                                          pageMembers currentUserId)
   == (if Qgtb (owes r) tolerance then owes r else 0))
  /\ (to_user r = currentUserId ->
      balanceOf (from_user r)
                (calculateSimplifiedBalances (getGroupBalances groupId expenses members)
                                             pageMembers currentUserId)
      == (if Qgtb (owes r) tolerance then - owes r else 0)).
Proof.
  intros H I.
  destruct (builder_rows_pairs groupId expenses members H) as [Ne Np].
  pose proof (builder_rows_one_way groupId expenses members) as Ow.
  assert (Nr : NoDup (getGroupBalances groupId expenses members))
    by (eapply NoDup_map_inv; exact Np).
  assert (Pos : tolerance <= owes r).
  { unfold getGroupBalances in I.
    destruct (balanceRows_In _ _ _ _ I) as (key & amt & _ & G & _ & ->).
    now apply round2_pos. }
  set (rows := getGroupBalances groupId expenses members) in *.
  split; intro Ec.
  - assert (V : viewTotal currentUserId rows (to_user r) == owes r).
    { unfold viewTotal.
      rewrite (sum_single (fun x => viewEffect currentUserId x (to_user r)) rows r Nr I).
      - unfold viewEffect. rewrite Ec, !String.eqb_refl. reflexivity.
      - intros x Ix Nx. unfold viewEffect.
        destruct (String.eqb (from_user x) currentUserId) eqn:X1.
        + destruct (String.eqb (to_user x) (to_user r)) eqn:X2; [|reflexivity].
          apply String.eqb_eq in X1. apply String.eqb_eq in X2.
          exfalso. apply Nx.
          apply (NoDup_map_In_inj (fun r => (from_user r, to_user r)) rows); auto.
          simpl. congruence.
        + destruct (String.eqb (to_user x) currentUserId) eqn:X3; [|reflexivity].
          destruct (String.eqb (from_user x) (to_user r)) eqn:X4; [|reflexivity].
          apply String.eqb_eq in X3. apply String.eqb_eq in X4.
          exfalso. apply (Ow x r H Ix I). split; congruence. }
    rewrite page_balance.
    assert (B : Qgtb (Qabs (viewTotal currentUserId rows (to_user r))) tolerance
                = Qgtb (owes r) tolerance).
    { unfold Qgtb. apply Qltb_comp; [reflexivity|].
      rewrite V. apply Qabs_pos. unfold tolerance in Pos. lra. }
    rewrite B. destruct (Qgtb (owes r) tolerance); [exact V | reflexivity].
  - assert (Nf : from_user r <> currentUserId).
    { intro E. apply (Ne r I). congruence. }
    assert (V : viewTotal currentUserId rows (from_user r) == - owes r).
    { unfold viewTotal.
      rewrite (sum_single (fun x => viewEffect currentUserId x (from_user r)) rows r Nr I).
      - unfold viewEffect. apply String.eqb_neq in Nf.
        rewrite Nf, Ec, !String.eqb_refl. reflexivity.
      - intros x Ix Nx. unfold viewEffect.
        destruct (String.eqb (from_user x) currentUserId) eqn:X1.
        + destruct (String.eqb (to_user x) (from_user r)) eqn:X2; [|reflexivity].
          apply String.eqb_eq in X1. apply String.eqb_eq in X2.
          exfalso. apply (Ow x r H Ix I). split; congruence.
        + destruct (String.eqb (to_user x) currentUserId) eqn:X3; [|reflexivity].
          destruct (String.eqb (from_user x) (from_user r)) eqn:X4; [|reflexivity].
          apply String.eqb_eq in X3. apply String.eqb_eq in X4.
          exfalso. apply Nx.
          apply (NoDup_map_In_inj (fun r => (from_user r, to_user r)) rows); auto.
          simpl. congruence. }
    rewrite page_balance.
    assert (B : Qgtb (Qabs (viewTotal currentUserId rows (from_user r))) tolerance
                = Qgtb (owes r) tolerance).
    { unfold Qgtb. apply Qltb_comp; [reflexivity|].
      rewrite V, Qabs_opp. apply Qabs_pos. unfold tolerance in Pos. lra. }
    rewrite B. destruct (Qgtb (owes r) tolerance); [exact V | reflexivity].
Qed.

(** X12 on [chainExpenses], seen by B. *)
Lemma page_of_builder_rows_witness :
  (from_user (mkUserBalance "g" "B" "A" (round2 (0 + 10)) None None) = "B" ->
   balanceOf (to_user (mkUserBalance "g" "B" "A" (round2 (0 + 10)) None None))
             (calculateSimplifiedBalances (getGroupBalances "g" chainExpenses [])
                                          [] "B")
   == (if Qgtb (owes (mkUserBalance "g" "B" "A" (round2 (0 + 10)) None None)) tolerance
       then owes (mkUserBalance "g" "B" "A" (round2 (0 + 10)) None None) else 0))
  /\ (to_user (mkUserBalance "g" "B" "A" (round2 (0 + 10)) None None) = "B" ->
      balanceOf (from_user (mkUserBalance "g" "B" "A" (round2 (0 + 10)) None None))
                (calculateSimplifiedBalances (getGroupBalances "g" chainExpenses [])
                                             [] "B")
      == (if Qgtb (owes (mkUserBalance "g" "B" "A" (round2 (0 + 10)) None None))
                  tolerance
          then - owes (mkUserBalance "g" "B" "A" (round2 (0 + 10)) None None) else 0)).
Proof.
  apply (page_of_builder_rows "g" chainExpenses [] [] "B").
  - colon_free.
  - vm_compute. left. reflexivity.
Defined.

(** * The confidence of a parsed input *)

(** X13. [calculateConfidence] is a multiple of 5 between 0 and 100; the five
    weights sum to 100, so the final [Math.min] never cuts anything; the
    result is 100 exactly when the amount is positive, the description is
    neither empty nor 'Expense', the category is not 'Other', and a date and
    a payer are present, and 0 exactly when none of the five holds. *)
Theorem calculateConfidence_range (parsed : NLPParsedResult) :
  (0 <= calculateConfidence parsed <= 100)%Z
  /\ (exists k, calculateConfidence parsed = 5 * k)%Z
  /\ (calculateConfidence parsed = 100%Z
      <-> Qgtb (parsed_amount parsed) 0 = true
          /\ nonEmpty (parsed_description parsed) = true
          /\ parsed_description parsed <> "Expense"
          /\ parsed_category parsed <> Other
          /\ present (parsed_date parsed) = true
          /\ present (parsed_payer parsed) = true)
  /\ (calculateConfidence parsed = 0%Z
      <-> Qgtb (parsed_amount parsed) 0 = false
          /\ (nonEmpty (parsed_description parsed) = false
              \/ parsed_description parsed = "Expense")
          /\ parsed_category parsed = Other
          /\ present (parsed_date parsed) = false
          /\ present (parsed_payer parsed) = false).
Proof.
  unfold calculateConfidence.
  assert (Cat : category_eqb (parsed_category parsed) Other = true
                <-> parsed_category parsed = Other).
  { destruct (parsed_category parsed); simpl; split; congruence. }
  assert (Desc : String.eqb (parsed_description parsed) "Expense" = true
                 <-> parsed_description parsed = "Expense") by apply String.eqb_eq.
  destruct (Qgtb (parsed_amount parsed) 0);
    destruct (nonEmpty (parsed_description parsed));
    destruct (String.eqb (parsed_description parsed) "Expense") eqn:E;
    destruct (category_eqb (parsed_category parsed) Other) eqn:C;
    destruct (present (parsed_date parsed));
    destruct (present (parsed_payer parsed)); simpl;
    (split; [lia|]); (split; [eexists; match goal with
                                        | |- ?n = _ => instantiate (1 := (n / 5)%Z)
                                        end; reflexivity|]);
    split; split; intros; repeat split;
    try reflexivity; try discriminate; try lia;
    repeat match goal with
           | H : _ /\ _ |- _ => destruct H
           | H : _ \/ _ |- _ => destruct H
           end;
    try discriminate; try congruence;
    try (intro X; apply Desc in X; discriminate);
    try (intro X; apply Cat in X; discriminate);
    try (apply Cat; reflexivity);
    try (right; apply Desc; reflexivity);
    try (left; reflexivity);
    try (exfalso; match goal with
                  | H : parsed_category parsed <> Other |- _ => apply H, Cat; reflexivity
                  | H : parsed_description parsed <> "Expense" |- _ =>
                      apply H, Desc; reflexivity
                  | H : parsed_category parsed = Other |- _ =>
                      apply Cat in H; discriminate
                  | H : parsed_description parsed = "Expense" |- _ =>
                      apply Desc in H; discriminate
                  end).
Qed.

(** * The equal split *)

(** Rounding to paise moves a number by at most half a paisa. *)
Lemma round2_error (x : Q) : Qabs (round2 x - x) <= 1 # 200.
Proof.
  unfold round2, Math_round.
  pose proof (Qfloor_le (x * 100 + (1 # 2))) as Lo.
  pose proof (Qlt_floor (x * 100 + (1 # 2))) as Hi.
  rewrite inject_Z_plus in Hi. change (inject_Z 1) with 1 in Hi.
  set (k := inject_Z (Qfloor (x * 100 + (1 # 2)))) in *.
  apply Qabs_Qle_condition. split.
  - apply Qle_minus_iff.
    setoid_replace (k / 100 - x + - - (1 # 200))
      with ((k - (x * 100 + (1 # 2)) + 1) / 100) by field.
    apply Qle_shift_div_l; [reflexivity | lra].
  - apply Qle_minus_iff.
    setoid_replace ((1 # 200) + - (k / 100 - x))
      with ((x * 100 + (1 # 2) - k) / 100) by field.
    apply Qle_shift_div_l; [reflexivity | lra].
Qed.

Lemma equalSplits_sum amountNum members :
  sumQ (map share_amount (equalSplits amountNum members))
  == size_of members
     * round2 (amountNum / inject_Z (Z.of_nat (List.length members))).
Proof.
  unfold equalSplits, size_of. rewrite map_map. cbn [share_amount].
  generalize (round2 (amountNum / inject_Z (Z.of_nat (List.length members)))).
  intro share. induction members as [|m ms IH]; cbn [map sumQ List.length].
  - change (inject_Z (Z.of_nat 0)) with 0. lra.
  - rewrite IH, Nat2Z.inj_succ, <- Z.add_1_r, inject_Z_plus.
    change (inject_Z 1) with 1. lra.
Qed.



Lemma map_set_fresh {V} (m : JsMap V) k v :
  map_get m k = None -> map_set m k v = m ++ [(k, v)].
Proof.
  induction m as [|[k0 v0] r IH]; simpl; [reflexivity|].
  destruct (String.eqb k0 k); [discriminate|]. intro H. now rewrite IH.
Qed.

Lemma map_get_app_fresh {V} (m : JsMap V) k v k' :
  map_get m k' = None -> k <> k' -> map_get (m ++ [(k, v)]) k' = None.
Proof.
  intros H Ne. induction m as [|[k0 v0] r IH]; simpl in *.
  - apply String.eqb_neq in Ne. now rewrite Ne.
  - destruct (String.eqb k0 k'); [discriminate | now apply IH].
Qed.

(** The splits of one payer, all of the same share, on a map that knows
    none of the pairs: every member other than the payer gets a new entry. *)
Lemma fold_netSplit_fresh payer share (members : list GroupMember) (m : JsMap Q) :
  NoDup (map member_user_id members) ->
  noColon payer = true ->
  (forall x, In x members -> noColon (member_user_id x) = true) ->
  (forall x, In x members ->
             map_get m (pairKey (member_user_id x) payer) = None
             /\ map_get m (pairKey payer (member_user_id x)) = None) ->
  fold_left (netSplit payer)
            (map (fun x => {| split_user_id := member_user_id x;
                              share_amount := share |}) members) m
  = m ++ map (fun x => (pairKey (member_user_id x) payer, 0 + share))
             (filter (fun x => negb (String.eqb (member_user_id x) payer)) members).
Proof.
  intros N Hp. revert m. induction members as [|x xs IH]; intros m Hc Hm; simpl.
  - now rewrite app_nil_r.
  - simpl in N. inversion N; subst.
    unfold netSplit at 2. cbn [split_user_id share_amount].
    destruct (String.eqb (member_user_id x) payer) eqn:E; simpl.
    + apply IH; auto.
      * intros y Iy. apply Hc. now right.
      * intros y Iy. apply Hm. now right.
    + destruct (Hm x (or_introl eq_refl)) as [Gk Gr].
      apply String.eqb_neq in E.
      assert (Ab : absorb m (member_user_id x) payer share
                   = m ++ [(pairKey (member_user_id x) payer, 0 + share)]).
      { unfold absorb, getOrZero. rewrite Gk, Gr.
        replace (Qgtb 0 0) with false by reflexivity.
        now apply map_set_fresh. }
      rewrite Ab, IH; auto.
      * now rewrite <- app_assoc.
      * intros y Iy. apply Hc. now right.
      * intros y Iy. destruct (Hm y (or_intror Iy)) as [Yk Yr].
        assert (Hx : noColon (member_user_id x) = true) by (apply Hc; now left).
        assert (Hy : noColon (member_user_id y) = true) by (apply Hc; now right).
        split; apply map_get_app_fresh; auto; intro K.
        -- destruct (pairKey_inj _ _ _ _ Hx Hp Hy Hp K) as [Exy _].
           apply H1. rewrite Exy. now apply in_map.
        -- destruct (pairKey_inj _ _ _ _ Hx Hp Hp Hy K) as [Exp _]. congruence.
Qed.

Lemma balanceRows_fresh groupId names payer share (members : list GroupMember) :
  noColon payer = true ->
  (forall x, In x members -> noColon (member_user_id x) = true) ->
  tolerance < share ->
  balanceRows groupId names
              (map (fun x => (pairKey (member_user_id x) payer, 0 + share)) members)
  = map (fun x => {| group_id := groupId;
                     from_user := member_user_id x;
                     to_user := payer;
                     owes := round2 (0 + share);
                     from_user_name := map_get names (member_user_id x);
                     to_user_name := map_get names payer |}) members.
Proof.
  intros Hp Hc Hs. unfold balanceRows.
  induction members as [|x xs IH]; simpl; [reflexivity|].
  rewrite IH by (intros y Iy; apply Hc; now right).
  assert (G : Qgtb (0 + share) tolerance = true) by (apply Qltb_lt; lra).
  rewrite G, keyUsers_pairKey; auto. apply Hc. now left.
Qed.



(** * Smart categorization *)

Section SmartCategorizeFacts.

Variable toLowerCase : string -> string.
Variable splitWhitespace : string -> list string.
Variable includes : string -> string -> bool.
Variable words : list string.
Variable lowerDesc : string.

Lemma scoreKeywords_spec keywords s0 ms0 :
  snd (fold_left (scoreKeyword includes words lowerDesc) keywords (s0, ms0))
  = ms0 ++ filter (matchesKeyword includes words lowerDesc) keywords
  /\ (filter (matchesKeyword includes words lowerDesc) keywords = [] ->
      fst (fold_left (scoreKeyword includes words lowerDesc) keywords (s0, ms0)) == s0)
  /\ s0 <= fst (fold_left (scoreKeyword includes words lowerDesc) keywords (s0, ms0))
  /\ (filter (matchesKeyword includes words lowerDesc) keywords <> [] ->
      s0 + 1 <= fst (fold_left (scoreKeyword includes words lowerDesc) keywords (s0, ms0))).
Proof.
  revert s0 ms0. induction keywords as [|k ks IH]; intros s0 ms0.
  - cbn [fold_left filter fst snd]. rewrite app_nil_r.
    repeat split; try lra. congruence.
  - cbn [fold_left filter].
    assert (Step : scoreKeyword includes words lowerDesc (s0, ms0) k
                   = if isWord words k then (s0 + 2, ms0 ++ [k])
                     else if includes lowerDesc k then (s0 + 1, ms0 ++ [k])
                          else (s0, ms0)) by reflexivity.
    rewrite Step.
    destruct (isWord words k) eqn:W; [|destruct (includes lowerDesc k) eqn:I].
    + assert (M : (matchesKeyword includes words lowerDesc) k = true)
        by (unfold matchesKeyword; rewrite W; reflexivity).
      rewrite M. destruct (IH (s0 + 2) (ms0 ++ [k])) as (A & B & C & D).
      rewrite A, <- app_assoc.
      split; [reflexivity|]. split; [intro X; discriminate|].
      split; [lra | intros _; lra].
    + assert (M : (matchesKeyword includes words lowerDesc) k = true)
        by (unfold matchesKeyword; rewrite W, I; reflexivity).
      rewrite M. destruct (IH (s0 + 1) (ms0 ++ [k])) as (A & B & C & D).
      rewrite A, <- app_assoc.
      split; [reflexivity|]. split; [intro X; discriminate|].
      split; [lra | intros _; lra].
    + assert (M : (matchesKeyword includes words lowerDesc) k = false)
        by (unfold matchesKeyword; rewrite W, I; reflexivity).
      rewrite M. apply IH.
Qed.

Lemma applyRule_state done b rule :
  1 <= rule_priority rule -> rule_category rule <> Other ->
  stateNone includes words lowerDesc done b \/ stateSome includes words lowerDesc done b ->
  stateNone includes words lowerDesc (done ++ [rule]) (applyRule includes words lowerDesc b rule)
  \/ stateSome includes words lowerDesc (done ++ [rule]) (applyRule includes words lowerDesc b rule).
Proof.
  intros Hp Hc St. unfold applyRule.
  destruct (scoreKeywords_spec (rule_keywords rule) 0 []) as (A & B & C & D).
  set (scored := fold_left (scoreKeyword includes words lowerDesc)
                           (rule_keywords rule) (0, [])) in *.
  simpl in A.
  destruct (filter (matchesKeyword includes words lowerDesc) (rule_keywords rule)) as [|k ks] eqn:F.
  - (* the rule matches nothing *)
    assert (Z : fst scored * (1 + rule_priority rule * (1 # 10)) == 0).
    { rewrite (B eq_refl). ring. }
    assert (G : Qgtb (fst scored * (1 + rule_priority rule * (1 # 10))) (best_score b)
                = false).
    { apply Qltb_ge. rewrite Z.
      destruct St as [(_ & S0 & _)|(_ & S1 & _)]; lra. }
    rewrite G. destruct St as [(X1 & X2 & X3 & X4)|(X1 & X2 & X3 & r & Ir & X4)].
    + left. repeat split; auto. intros r Ir. apply in_app_or in Ir.
      destruct Ir as [Ir|[<-|[]]]; auto.
    + right. repeat split; auto. exists r. split; [apply in_or_app; now left | exact X4].
  - (* the rule matches *)
    assert (P : 11 # 10 <= fst scored * (1 + rule_priority rule * (1 # 10))).
    { assert (D1 : 0 + 1 <= fst scored) by (apply D; discriminate).
      nra. }
    destruct (Qgtb (fst scored * (1 + rule_priority rule * (1 # 10))) (best_score b))
      eqn:G.
    + right. unfold stateSome. cbn [best_category best_score best_matchedKeywords].
      repeat split; auto.
      * rewrite A. discriminate.
      * exists rule. split; [apply in_or_app; right; now left|].
        split; [reflexivity | now rewrite A, F].
    + apply Qltb_ge in G.
      destruct St as [(_ & S0 & _)|(X1 & X2 & X3 & r & Ir & X4)]; [lra|].
      right. repeat split; auto. exists r. split; [apply in_or_app; now left | exact X4].
Qed.

Lemma fold_applyRule_state rules done b :
  goodRules rules ->
  stateNone includes words lowerDesc done b \/ stateSome includes words lowerDesc done b ->
  stateNone includes words lowerDesc (done ++ rules) (fold_left (applyRule includes words lowerDesc) rules b)
  \/ stateSome includes words lowerDesc (done ++ rules) (fold_left (applyRule includes words lowerDesc) rules b).
Proof.
  revert done b. induction rules as [|r rs IH]; intros done b G St; simpl.
  - now rewrite app_nil_r.
  - replace (done ++ r :: rs) with ((done ++ [r]) ++ rs)
      by (now rewrite <- app_assoc).
    apply IH.
    + intros x Ix. apply G. now right.
    + destruct (G r (or_introl eq_refl)). now apply applyRule_state.
Qed.

End SmartCategorizeFacts.

Lemma categoryRules_good : goodRules categoryRules.
Proof.
  intros r I. unfold categoryRules in I. simpl in I.
  repeat (destruct I as [<-|I]; [split; [simpl; lra | discriminate]|]).
  contradiction.
Qed.

Lemma categorizeWith_result
        (toLowerCase : string -> string) (splitWhitespace : string -> list string)
        (includes : string -> string -> bool) (rules : list CategoryRule)
        (description : string) :
  goodRules rules ->
  (0 <= cat_confidence (categorizeWith toLowerCase splitWhitespace includes rules description)
   <= 100)%Z
  /\ ((cat_category (categorizeWith toLowerCase splitWhitespace includes rules description)
       = Other
       /\ cat_confidence (categorizeWith toLowerCase splitWhitespace includes rules description)
          = 0%Z
       /\ cat_matchedKeywords
            (categorizeWith toLowerCase splitWhitespace includes rules description) = []
       /\ forall r k, In r rules -> In k (rule_keywords r) ->
                      matchesKeyword includes
                                     (splitWhitespace (toLowerCase description))
                                     (toLowerCase description) k = false)
      \/ (cat_category (categorizeWith toLowerCase splitWhitespace includes rules description)
          <> Other
          /\ (11 <= cat_confidence
                      (categorizeWith toLowerCase splitWhitespace includes rules description))%Z
          /\ cat_matchedKeywords
               (categorizeWith toLowerCase splitWhitespace includes rules description) <> []
          /\ exists r, In r rules
                       /\ cat_category
                            (categorizeWith toLowerCase splitWhitespace includes rules
                                            description)
                          = rule_category r
                       /\ cat_matchedKeywords
                            (categorizeWith toLowerCase splitWhitespace includes rules
                                            description)
                          = filter (matchesKeyword includes
                                      (splitWhitespace (toLowerCase description))
                                      (toLowerCase description))
                                   (rule_keywords r))).
Proof.
  intro Good. unfold categorizeWith.
  cbn [cat_category cat_confidence cat_matchedKeywords].
  set (lowerDesc := toLowerCase description).
  set (words := splitWhitespace lowerDesc).
  destruct (fold_applyRule_state includes words lowerDesc rules []
              {| best_category := Other; best_score := 0; best_matchedKeywords := [] |}
              Good) as [St|St].
  { left. repeat split; simpl; auto; try reflexivity. intros r []. }
  - destruct St as (X1 & X2 & X3 & X4). simpl app in X4.
    set (b := fold_left _ rules _) in *. clearbody b.
    assert (C0 : Math_round (best_score b / 10 * 100) = 0%Z).
    { assert (E : best_score b / 10 * 100 == inject_Z 0) by (rewrite X2; reflexivity).
      rewrite E. apply Math_round_Z. }
    rewrite C0. split; [simpl; lia|]. left. repeat split; auto.
    intros r k Ir Ik. specialize (X4 r Ir).
    destruct (matchesKeyword includes words lowerDesc k) eqn:M; [|reflexivity].
    assert (In k (filter (matchesKeyword includes words lowerDesc) (rule_keywords r)))
      by (apply filter_In; auto).
    rewrite X4 in H. contradiction.
  - destruct St as (X1 & X2 & X3 & X4). simpl app in X4.
    set (b := fold_left _ rules _) in *. clearbody b.
    assert (C1 : (11 <= Math_round (best_score b / 10 * 100))%Z).
    { unfold Math_round. rewrite <- (Qfloor_Z 11). apply Qfloor_resp_le.
      change (inject_Z 11) with 11.
      setoid_replace (best_score b / 10 * 100) with (best_score b * 10) by field.
      lra. }
    split; [lia|]. right. repeat split; auto. lia.
Qed.

(** X16. [smartCategorize], whatever the string methods do: the confidence
    is between 0 and 100.  Either no keyword of any rule is a word of the
    description or occurs in it, and then the category is 'Other', the
    confidence 0 and no keyword is reported; or the category is the category
    of a rule, the reported keywords are the keywords of that rule that are
    words of the description or occur in it, in the order of the rule, there
    is at least one, and the confidence is at least 11. *)
Theorem smartCategorize_result
        (toLowerCase : string -> string) (splitWhitespace : string -> list string)
        (includes : string -> string -> bool) (description : string) :
  (0 <= cat_confidence (smartCategorize toLowerCase splitWhitespace includes description)
   <= 100)%Z
  /\ ((cat_category (smartCategorize toLowerCase splitWhitespace includes description)
       = Other
       /\ cat_confidence (smartCategorize toLowerCase splitWhitespace includes description)
          = 0%Z
       /\ cat_matchedKeywords
            (smartCategorize toLowerCase splitWhitespace includes description) = []
       /\ forall r k, In r categoryRules -> In k (rule_keywords r) ->
                      matchesKeyword includes
                                     (splitWhitespace (toLowerCase description))
                                     (toLowerCase description) k = false)
      \/ (cat_category (smartCategorize toLowerCase splitWhitespace includes description)
          <> Other
          /\ (11 <= cat_confidence
                      (smartCategorize toLowerCase splitWhitespace includes description))%Z
          /\ cat_matchedKeywords
               (smartCategorize toLowerCase splitWhitespace includes description) <> []
          /\ exists r, In r categoryRules
                       /\ cat_category
                            (smartCategorize toLowerCase splitWhitespace includes
                                             description)
                          = rule_category r
                       /\ cat_matchedKeywords
                            (smartCategorize toLowerCase splitWhitespace includes
                                             description)
                          = filter (matchesKeyword includes
                                      (splitWhitespace (toLowerCase description))
                                      (toLowerCase description))
                                   (rule_keywords r))).
Proof.
  exact (categorizeWith_result toLowerCase splitWhitespace includes categoryRules
                               description categoryRules_good).
Qed.
